(** * KV-Store: a shallow embedding of the consensus module, the store and
      the write-ahead log, with the properties of the specification.

    Sources embedded here:
    - package raft, [src/internal/raft/raft.go] lines 1-460: [Consensus]
      and its methods;
    - package store, in the same file, lines 461-513: [Store.Set], [Get],
      [Restore];
    - package wal, [src/kv-dashboard/src/components/NodeCard.tsx] lines
      191-327: [flush], [WriteEntry], [Recover];
    - package server, [src/internal/server/server.go]: the SET, GET,
      JOIN, APPENDENTRIES and VOTEREQUEST branches of [handleConnection];
    - package server, metrics, [src/unnamed/part_005] lines 65-177:
      [Metrics] and, up to its conversions to floating point,
      [GetSnapshot].

    Conventions.  A Go [int] is a 64-bit two's complement integer; it is
    modelled as a [Z] and every addition or subtraction whose operands are
    not bounded by the language (a term read from the wire, a counter) is
    wrapped by [GoInt.wrap].  [len] of a slice is always in [0, 2^63) in
    Go, so [len l - 1] and [len l + 1] are written without wrapping.  A Go
    [string] is a sequence of bytes: [String.string].  A Go [map] is a
    [gmap].  A mutex-protected method is one atomic function on the state;
    a method that releases the mutex in the middle is split at the places
    where it does. *)

From Stdlib Require Import ZArith Lia Ascii String.
From stdpp Require Import base decidable strings list gmap sorting.

#[local] Open Scope Z_scope.

(** ** Go integers *)

Module GoInt.

Definition min_int : Z := - 2 ^ 63.
Definition max_int : Z := 2 ^ 63 - 1.

Definition in_range (z : Z) : Prop := min_int <= z <= max_int.

(** Two's complement wrap-around of a 64-bit signed integer. *)
Definition wrap (z : Z) : Z := (z + 2 ^ 63) mod 2 ^ 64 - 2 ^ 63.

Definition add (a b : Z) : Z := wrap (a + b).
Definition sub (a b : Z) : Z := wrap (a - b).

End GoInt.

(** [len] of a Go slice. *)
Definition len {A} (l : list A) : Z := Z.of_nat (length l).

(** [l[:n]] and [l[n:]] for an [n] the caller has checked to be in range. *)
Definition slice_to {A} (l : list A) (n : Z) : list A := take (Z.to_nat n) l.
Definition slice_from {A} (l : list A) (n : Z) : list A := drop (Z.to_nat n) l.

(** A Go function either returns or panics (a slice bound out of range). *)
Inductive result (A : Type) : Type :=
| Ok (a : A)
| Panic.
Arguments Ok {A} a.
Arguments Panic {A}.

(** ** The consensus module (package raft) *)

Module Raft.

Definition Follower : string := "Follower".
Definition Candidate : string := "Candidate".
Definition Leader : string := "Leader".

Record LogEntry := mkLogEntry {
  Term : Z;
  Command : string
}.

#[export] Instance LogEntry_eq_dec : EqDecision LogEntry.
Proof. solve_decision. Defined.

(** The fields of [Consensus] that the mutex protects.  [heartbeatCh] is an
    unbuffered channel on which the handlers send from a fresh goroutine:
    its state is the number of senders that wait for [runFollower] to
    receive. *)
Record Consensus := mkConsensus {
  State : string;
  CurrentTerm : Z;
  ID : string;
  Peers : list string;
  VotedFor : string;
  heartbeatCh : nat;
  Log : list LogEntry;
  CommitIndex : Z;
  lastApplied : Z;
  paused : bool;
  nextIndex : gmap string Z;
  matchIndex : gmap string Z
}.

Definition set_State (v : string) (c : Consensus) : Consensus :=
  mkConsensus v (CurrentTerm c) (ID c) (Peers c) (VotedFor c) (heartbeatCh c)
    (Log c) (CommitIndex c) (lastApplied c) (paused c) (nextIndex c) (matchIndex c).
Definition set_CurrentTerm (v : Z) (c : Consensus) : Consensus :=
  mkConsensus (State c) v (ID c) (Peers c) (VotedFor c) (heartbeatCh c)
    (Log c) (CommitIndex c) (lastApplied c) (paused c) (nextIndex c) (matchIndex c).
Definition set_VotedFor (v : string) (c : Consensus) : Consensus :=
  mkConsensus (State c) (CurrentTerm c) (ID c) (Peers c) v (heartbeatCh c)
    (Log c) (CommitIndex c) (lastApplied c) (paused c) (nextIndex c) (matchIndex c).
Definition set_heartbeatCh (v : nat) (c : Consensus) : Consensus :=
  mkConsensus (State c) (CurrentTerm c) (ID c) (Peers c) (VotedFor c) v
    (Log c) (CommitIndex c) (lastApplied c) (paused c) (nextIndex c) (matchIndex c).
Definition set_Log (v : list LogEntry) (c : Consensus) : Consensus :=
  mkConsensus (State c) (CurrentTerm c) (ID c) (Peers c) (VotedFor c) (heartbeatCh c)
    v (CommitIndex c) (lastApplied c) (paused c) (nextIndex c) (matchIndex c).
Definition set_CommitIndex (v : Z) (c : Consensus) : Consensus :=
  mkConsensus (State c) (CurrentTerm c) (ID c) (Peers c) (VotedFor c) (heartbeatCh c)
    (Log c) v (lastApplied c) (paused c) (nextIndex c) (matchIndex c).
Definition set_lastApplied (v : Z) (c : Consensus) : Consensus :=
  mkConsensus (State c) (CurrentTerm c) (ID c) (Peers c) (VotedFor c) (heartbeatCh c)
    (Log c) (CommitIndex c) v (paused c) (nextIndex c) (matchIndex c).
Definition set_paused (v : bool) (c : Consensus) : Consensus :=
  mkConsensus (State c) (CurrentTerm c) (ID c) (Peers c) (VotedFor c) (heartbeatCh c)
    (Log c) (CommitIndex c) (lastApplied c) v (nextIndex c) (matchIndex c).
Definition set_nextIndex (v : gmap string Z) (c : Consensus) : Consensus :=
  mkConsensus (State c) (CurrentTerm c) (ID c) (Peers c) (VotedFor c) (heartbeatCh c)
    (Log c) (CommitIndex c) (lastApplied c) (paused c) v (matchIndex c).
Definition set_matchIndex (v : gmap string Z) (c : Consensus) : Consensus :=
  mkConsensus (State c) (CurrentTerm c) (ID c) (Peers c) (VotedFor c) (heartbeatCh c)
    (Log c) (CommitIndex c) (lastApplied c) (paused c) (nextIndex c) v.

(** [go func() { c.heartbeatCh <- true }()] : one more sender waits. *)
Definition signal_heartbeat (c : Consensus) : Consensus :=
  set_heartbeatCh (S (heartbeatCh c)) c.

(** Reading a Go map at a missing key gives the zero value. *)
Definition map_get (m : gmap string Z) (k : string) : Z := default 0 (m !! k).

Definition NewConsensus (id : string) (peers : list string) : Consensus :=
  {| State := Follower;
     CurrentTerm := 0;
     ID := id;
     Peers := peers;
     VotedFor := "";
     heartbeatCh := 0%nat;
     Log := [];
     CommitIndex := -1;
     lastApplied := -1;
     paused := false;
     nextIndex := ∅;
     matchIndex := ∅ |}.

Definition GetLogLength (c : Consensus) : Z := len (Log c).
Definition GetState (c : Consensus) : string := State c.
Definition GetTerm (c : Consensus) : Z := CurrentTerm c.
Definition GetCommitIndex (c : Consensus) : Z := CommitIndex c.
Definition IsPaused (c : Consensus) : bool := paused c.

(** [GetUnappliedEntries]: [c.Log[start:]] panics when [start] is negative
    ([start <= len(c.Log)] holds after the first test). *)
Definition GetUnappliedEntries (c : Consensus) : result (Consensus * list LogEntry) :=
  if decide (lastApplied c >= len (Log c) - 1) then Ok (c, [])
  else
    let start := lastApplied c + 1 in
    if decide (start < 0) then Panic
    else
      let entries := slice_from (Log c) start in
      Ok (set_lastApplied (len (Log c) - 1) c, entries).

(** [HandleRequestVote]. *)
Definition HandleRequestVote (term : Z) (candidateID : string) (c : Consensus)
  : Consensus * bool :=
  if decide (term < CurrentTerm c) then (c, false)
  else
    let c1 :=
      if decide (term > CurrentTerm c)
      then set_VotedFor "" (set_State Follower (set_CurrentTerm term c))
      else c in
    if decide (VotedFor c1 = "" ∨ VotedFor c1 = candidateID)
    then (signal_heartbeat (set_VotedFor candidateID c1), true)
    else (c1, false).

(** [HandleHeartbeat]. *)
Definition HandleHeartbeat (term : Z) (c : Consensus) : Consensus :=
  if decide (term >= CurrentTerm c)
  then signal_heartbeat (set_State Follower (set_CurrentTerm term c))
  else c.

Definition Pause (c : Consensus) : Consensus := set_paused true c.

Definition Resume (c : Consensus) : Consensus :=
  set_VotedFor "" (set_State Follower (set_paused false c)).

Definition ClearLog (c : Consensus) : Consensus :=
  set_lastApplied 0 (set_CommitIndex 0 (set_Log [] c)).

Definition AddLogEntry (command : string) (c : Consensus) : Consensus :=
  if paused c then c
  else set_Log (Log c ++ [mkLogEntry (CurrentTerm c) command]) c.

(** [HandleAppendEntriesIncremental]. *)
Definition HandleAppendEntriesIncremental
    (term : Z) (leaderID : string) (prevLogIndex : Z) (entries : list LogEntry)
    (c : Consensus) : Consensus * bool :=
  if paused c then (c, false)
  else if decide (term < CurrentTerm c) then (c, false)
  else
    let c1 := signal_heartbeat
                (set_VotedFor "" (set_State Follower (set_CurrentTerm term c))) in
    if decide (len entries = 0) then (c1, true)
    else
      let insertPoint := GoInt.add prevLogIndex 1 in
      let insertPoint := if decide (insertPoint < 0) then 0 else insertPoint in
      let log1 :=
        if decide (insertPoint <= len (Log c1))
        then slice_to (Log c1) insertPoint
        else Log c1 in
      (set_Log (log1 ++ entries) c1, true).

(** [Replicate], up to the point where it releases the mutex; the caller
    then runs [broadcastHeartbeat]. *)
Definition Replicate (command : string) (c : Consensus) : Consensus * bool :=
  if decide (State c ≠ Leader) then (c, false)
  else (set_Log (Log c ++ [mkLogEntry (CurrentTerm c) command]) c, true).

(** [runFollower].  What the [select] receives is an input of the model: a
    pending send on [heartbeatCh], or the election timer. *)
Inductive FollowerEvent := HeartbeatReceived | ElectionTimeout.

Definition runFollower (ev : FollowerEvent) (c : Consensus) : Consensus :=
  if IsPaused c then c
  else match ev with
       | HeartbeatReceived => set_heartbeatCh (Nat.pred (heartbeatCh c)) c
       | ElectionTimeout => set_State Candidate c
       end.

(** [runLeader] only reads the state: after each tick, which starts a
    [broadcastHeartbeat], the loop goes on while the node is Leader and
    not paused. *)
Definition runLeader_continues (c : Consensus) : bool :=
  negb (bool_decide (State c ≠ Leader) || paused c).

(** [runCandidate], split where it releases the mutex.
    [quorum := (len(c.Peers)+1)/2 + 1]; Go's [/] truncates toward zero. *)
Definition quorum (c : Consensus) : Z := Z.quot (len (Peers c) + 1) 2 + 1.

(** [c.CurrentTerm++; c.VotedFor = c.ID; votes := 1; term := c.CurrentTerm]. *)
Definition candidate_begin (c : Consensus) : Consensus * Z * Z :=
  let c1 := set_VotedFor (ID c) (set_CurrentTerm (GoInt.add (CurrentTerm c) 1) c) in
  (c1, 1, CurrentTerm c1).

(** The body of [for _, peer := range c.Peers] after winning. *)
Definition init_peer (c : Consensus) (peer : string) : Consensus :=
  set_matchIndex (<[peer := -1]> (matchIndex c))
    (set_nextIndex (<[peer := len (Log c)]> (nextIndex c)) c).

Definition become_leader (c : Consensus) : Consensus :=
  foldl init_peer (set_State Leader c) (Peers c).

(** [case granted := <-voteCh]: the new tally, the new state, and whether
    [runCandidate] has returned. *)
Definition candidate_on_vote (granted : bool) (votes : Z) (c : Consensus)
  : Consensus * Z * bool :=
  let votes := if granted then GoInt.add votes 1 else votes in
  if decide (votes >= quorum c) then (become_leader c, votes, true)
  else (c, votes, false).

(** [case <-timeout]. *)
Definition candidate_on_timeout (c : Consensus) : Consensus := set_State Follower c.

Inductive CandidateEvent := VoteReply (granted : bool) | CandidateTimeout.

(** The [for { select { ... } }] loop on the events it receives, in order.
    The boolean tells whether the loop has returned; when the events run
    out first the candidate is still waiting. *)
Fixpoint candidate_loop (evs : list CandidateEvent) (votes : Z) (c : Consensus)
  : Consensus * bool :=
  match evs with
  | [] => (c, false)
  | VoteReply granted :: evs' =>
      let '(c1, votes1, returned) := candidate_on_vote granted votes c in
      if returned then (c1, true) else candidate_loop evs' votes1 c1
  | CandidateTimeout :: _ => (candidate_on_timeout c, true)
  end.

(** [runCandidate] when no other goroutine takes the mutex between its
    critical sections; [runCandidate_interleaved] below lets them in. *)
Definition runCandidate (evs : list CandidateEvent) (c : Consensus) : Consensus * bool :=
  if IsPaused c then (c, true)
  else
    let '(c1, votes, _) := candidate_begin c in
    candidate_loop evs votes c1.

(** The votes granted among the replies read from [voteCh]. *)
Definition granted_count (replies : list bool) : Z :=
  len (filter (fun g => g = true) replies).

(** [broadcastHeartbeat], split where it releases the mutex. *)
Record AppendEntries := mkAppendEntries {
  aeTerm : Z;
  aeLeaderID : string;
  aePrevLogIndex : Z;
  aeEntries : list LogEntry
}.

Inductive Response := SUCCESS | CONFLICT | NoResponse.

(** [term := c.CurrentTerm; leaderID := c.ID; logLen := len(c.Log)]. *)
Definition heartbeat_snapshot (c : Consensus) : Z * string * Z :=
  (CurrentTerm c, ID c, len (Log c)).

(** The first critical section of the goroutine for peer [p], and the
    message it then sends.  [c.Log[nextIdx:]] panics out of range. *)
Definition heartbeat_prepare (p : string) (term : Z) (leaderID : string) (logLen : Z)
    (c : Consensus) : result (Consensus * AppendEntries) :=
  let c1 :=
    if decide (nextIndex c !! p = None)
    then set_matchIndex (<[p := 0]> (matchIndex c))
           (set_nextIndex (<[p := logLen]> (nextIndex c)) c)
    else c in
  let nextIdx := map_get (nextIndex c1) p in
  let prevLogIndex := GoInt.sub nextIdx 1 in
  if decide (nextIdx < logLen) then
    if decide (nextIdx < 0 ∨ nextIdx > len (Log c1)) then Panic
    else Ok (c1, mkAppendEntries term leaderID prevLogIndex (slice_from (Log c1) nextIdx))
  else Ok (c1, mkAppendEntries term leaderID prevLogIndex []).

(** The second critical section: the peer's reply. *)
Definition heartbeat_response (p : string) (logLen : Z) (response : Response)
    (c : Consensus) : Consensus :=
  match response with
  | SUCCESS =>
      set_matchIndex (<[p := GoInt.sub logLen 1]> (matchIndex c))
        (set_nextIndex (<[p := logLen]> (nextIndex c)) c)
  | CONFLICT =>
      if decide (map_get (nextIndex c) p > 0)
      then set_nextIndex (<[p := GoInt.sub (map_get (nextIndex c) p) 1]> (nextIndex c)) c
      else c
  | NoResponse => c
  end.

(** Every operation of [Consensus], as data.  [Start] and
    [requestVoteFromPeer] touch no field under the mutex but [State] and
    [ID], which they read; [broadcastHeartbeat] is its snapshot, which
    reads, and the two critical sections of each peer's goroutine. *)
Inductive Op :=
| OpGetLogLength
| OpGetUnappliedEntries
| OpRunFollower (ev : FollowerEvent)
| OpRunCandidate (evs : list CandidateEvent)
| OpRunLeader
| OpHeartbeatSnapshot
| OpHeartbeatPrepare (p : string) (term : Z) (leaderID : string) (logLen : Z)
| OpHeartbeatResponse (p : string) (logLen : Z) (response : Response)
| OpReplicate (command : string)
| OpHandleRequestVote (term : Z) (candidateID : string)
| OpHandleHeartbeat (term : Z)
| OpGetState
| OpGetTerm
| OpGetCommitIndex
| OpPause
| OpResume
| OpIsPaused
| OpClearLog
| OpAddLogEntry (command : string)
| OpHandleAppendEntriesIncremental
    (term : Z) (leaderID : string) (prevLogIndex : Z) (entries : list LogEntry).

(** The state an operation leaves. *)
Definition exec (op : Op) (c : Consensus) : result Consensus :=
  match op with
  | OpGetLogLength | OpGetState | OpGetTerm | OpGetCommitIndex | OpIsPaused
  | OpRunLeader | OpHeartbeatSnapshot => Ok c
  | OpGetUnappliedEntries =>
      match GetUnappliedEntries c with
      | Ok (c', _) => Ok c'
      | Panic => Panic
      end
  | OpRunFollower ev => Ok (runFollower ev c)
  | OpRunCandidate evs => Ok (fst (runCandidate evs c))
  | OpHeartbeatPrepare p term leaderID logLen =>
      match heartbeat_prepare p term leaderID logLen c with
      | Ok (c', _) => Ok c'
      | Panic => Panic
      end
  | OpHeartbeatResponse p logLen response => Ok (heartbeat_response p logLen response c)
  | OpReplicate command => Ok (fst (Replicate command c))
  | OpHandleRequestVote term candidateID => Ok (fst (HandleRequestVote term candidateID c))
  | OpHandleHeartbeat term => Ok (HandleHeartbeat term c)
  | OpPause => Ok (Pause c)
  | OpResume => Ok (Resume c)
  | OpClearLog => Ok (ClearLog c)
  | OpAddLogEntry command => Ok (AddLogEntry command c)
  | OpHandleAppendEntriesIncremental term leaderID prevLogIndex entries =>
      Ok (fst (HandleAppendEntriesIncremental term leaderID prevLogIndex entries c))
  end.






End Raft.

(** ** The write-ahead log (package wal) *)

Module Wal.

(** A Go [error] value: [nil] or an error with a message. *)
Inductive error := ErrNil | Err (msg : string).

#[export] Instance error_eq_dec : EqDecision error.
Proof. solve_decision. Defined.

(** The log file.  [contents] is what has been written, [durable] what the
    last successful [Sync] covered.  The operating system's answers to the
    coming calls are an input of the model: each [WriteString] or [Sync]
    consumes the head of [faults]; an exhausted list means success.  A
    failing write may still have written a prefix of its argument. *)
Record Fault := mkFault { partial : nat; fault_msg : string }.

Record File := mkFile {
  contents : string;
  durable : string;
  faults : list (option Fault)
}.

Definition WriteString (s : string) (f : File) : File * error :=
  match faults f with
  | Some ft :: rest =>
      (mkFile (contents f +:+ String.substring 0 (partial ft) s) (durable f) rest,
       Err (fault_msg ft))
  | None :: rest => (mkFile (contents f +:+ s) (durable f) rest, ErrNil)
  | [] => (mkFile (contents f +:+ s) (durable f) [], ErrNil)
  end.

Definition Sync (f : File) : File * error :=
  match faults f with
  | Some ft :: rest => (mkFile (contents f) (durable f) rest, Err (fault_msg ft))
  | None :: rest => (mkFile (contents f) (contents f) rest, ErrNil)
  | [] => (mkFile (contents f) (contents f) [], ErrNil)
  end.

(** [done] is a channel of capacity one, named by a number; [chans] holds
    what has been sent on each. *)
Record pendingWrite := mkPendingWrite { entry : string; done : nat }.

Record WAL := mkWAL {
  file : File;
  pending : list pendingWrite;
  chans : gmap nat error;
  next_chan : nat
}.

(** The write loop of [flush]: stops at the first failing write. *)
Fixpoint write_all (toFlush : list pendingWrite) (f : File) : File * error :=
  match toFlush with
  | [] => (f, ErrNil)
  | pw :: rest =>
      match WriteString (entry pw) f with
      | (f1, ErrNil) => write_all rest f1
      | (f1, Err msg) => (f1, Err msg)
      end
  end.

(** Writes, then one [Sync] when no write failed: the file after the
    batch and [writeErr]. *)
Definition write_batch (toFlush : list pendingWrite) (f : File) : File * error :=
  match write_all toFlush f with
  | (f1, ErrNil) => Sync f1
  | (f1, Err msg) => (f1, Err msg)
  end.

(** [for _, pw := range toFlush { pw.done <- writeErr; close(pw.done) }]. *)
Definition notify (writeErr : error) (toFlush : list pendingWrite)
    (ch : gmap nat error) : gmap nat error :=
  foldl (fun m pw => <[done pw := writeErr]> m) ch toFlush.

Definition flush (w : WAL) : WAL :=
  match pending w with
  | [] => w
  | toFlush =>
      let '(f1, writeErr) := write_batch toFlush (file w) in
      mkWAL f1 [] (notify writeErr toFlush (chans w)) (next_chan w)
  end.

(** [fmt.Sprintf("%s,%s\n", key, value)]. *)
Definition format_entry (key value : string) : string :=
  key +:+ "," +:+ value +:+ String "010"%char EmptyString.

(** The first half of [WriteEntry]: make the channel, queue the write. *)
Definition enqueue (key value : string) (w : WAL) : WAL * nat :=
  let d := next_chan w in
  (mkWAL (file w) (pending w ++ [mkPendingWrite (format_entry key value) d])
         (chans w) (S d), d).

(** [<-done]: [None] while nothing has been sent. *)
Definition receive (d : nat) (w : WAL) : option error := chans w !! d.

(** [WriteEntry] in the schedule where the flusher's next tick follows the
    enqueue: [None] would mean that the caller waits for ever. *)
Definition WriteEntry (key value : string) (w : WAL) : WAL * option error :=
  let '(w1, d) := enqueue key value w in
  let w2 := flush w1 in
  (w2, receive d w2).

(** [bufio.Scanner] with [ScanLines], and [strings.Split]. *)

(** The pieces of [s] between the occurrences of [sep]; one more piece
    than there are separators. *)
Fixpoint split_on (sep : ascii) (s : string) : list string :=
  match s with
  | EmptyString => [EmptyString]
  | String a s' =>
      if Ascii.eqb a sep then EmptyString :: split_on sep s'
      else match split_on sep s' with
           | [] => [String a EmptyString]
           | x :: r => String a x :: r
           end
  end.

(** [strings.Split(line, ",")]. *)
Definition Split_comma (line : string) : list string := split_on ","%char line.

(** [dropCR]: a trailing carriage return is not part of the line. *)
Fixpoint dropCR (s : string) : string :=
  match s with
  | EmptyString => EmptyString
  | String a EmptyString => if Ascii.eqb a "013"%char then EmptyString else s
  | String a s' => String a (dropCR s')
  end.

(** [bufio.MaxScanTokenSize]. *)
Definition MaxScanTokenSize : Z := 64 * 1024.

(** The raw lines of a file: the text before each newline, and a last
    line without newline when it is not empty. *)
Definition raw_lines (content : string) : list string :=
  let pieces := split_on "010"%char content in
  match last pieces with
  | Some EmptyString | None => take (Nat.pred (length pieces)) pieces
  | Some _ => pieces
  end.

(** [scanner.Scan()] stops, with an error that [Recover] does not look at,
    at the first line that does not fit the scanner's buffer. *)
Fixpoint scan_tokens (lines : list string) : list string :=
  match lines with
  | [] => []
  | l :: rest =>
      if decide (Z.of_nat (String.length l) >= MaxScanTokenSize) then []
      else dropCR l :: scan_tokens rest
  end.

Definition scan_lines (content : string) : list string :=
  scan_tokens (raw_lines content).

(** The body of the scan loop of [Recover]. *)
Definition recover_line (data : gmap string string) (line : string)
  : gmap string string :=
  match Split_comma line with
  | [k; v] => <[k := v]> data
  | _ => data
  end.

(** What [os.Open] finds at a path: nothing, a file it cannot open, or a
    readable file. *)
Inductive inode := Unreadable (msg : string) | Regular (content : string).

(** [Recover]: the map ([None] for Go's nil map) and the error. *)
Definition Recover (fs : gmap string inode) (filename : string)
  : option (gmap string string) * error :=
  match fs !! filename with
  | None => (Some ∅, ErrNil)
  | Some (Unreadable msg) => (None, Err msg)
  | Some (Regular content) =>
      (Some (foldl recover_line ∅ (scan_lines content)), ErrNil)
  end.

(** Vocabulary for the properties of the log file. *)

(** The bytes a batch appends when every write succeeds. *)
Definition batch_bytes (toFlush : list pendingWrite) : string :=
  foldr (fun pw acc => entry pw +:+ acc) "" toFlush.

(** [b] starts with [a]. *)
Definition starts_with (a b : string) : Prop := exists t, b = a +:+ t.

Fixpoint contains (a : ascii) (s : string) : bool :=
  match s with
  | EmptyString => false
  | String b s' => Ascii.eqb b a || contains a s'
  end.

(** The line of a record, without its newline. *)
Definition record_line (kv : string * string) : string := kv.1 +:+ "," +:+ kv.2.

(** A record that the format can carry: no comma and no newline in the
    key or in the value, a line that does not end with a carriage return
    and that fits the scanner's buffer. *)
Definition clean_record (kv : string * string) : Prop :=
  contains "," kv.1 = false /\ contains "010" kv.1 = false
  /\ contains "," kv.2 = false /\ contains "010" kv.2 = false
  /\ dropCR (record_line kv) = record_line kv
  /\ Z.of_nat (String.length (record_line kv)) < MaxScanTokenSize.

(** A file made of the records that [WriteEntry] formats, possibly
    followed by a last record whose newline was not written. *)
Definition file_of_records (records : list (string * string))
    (unterminated : option (string * string)) : string :=
  foldr (fun kv acc => format_entry kv.1 kv.2 +:+ acc)
        (from_option record_line "" unterminated) records.

(** The map that the records define, the last record of a key winning. *)
Definition replay (records : list (string * string)) : gmap string string :=
  foldl (fun m kv => <[kv.1 := kv.2]> m) ∅ records.

End Wal.

(** ** The state machine (package store) *)

Module Store.

Import Wal.

Definition ErrorNotFound : error := Err "key not found".

Record Store := mkStore {
  wal : WAL;
  data : gmap string string
}.

Definition NewStore (w : WAL) : Store := mkStore w ∅.

(** [Set]: [None] when the call never returns (no flush signals it). *)
Definition Set_ (key value : string) (s : Store) : Store * option error :=
  match WriteEntry key value (wal s) with
  | (w1, None) => (mkStore w1 (data s), None)
  | (w1, Some (Err msg)) => (mkStore w1 (data s), Some (Err msg))
  | (w1, Some ErrNil) => (mkStore w1 (<[key := value]> (data s)), Some ErrNil)
  end.

Definition Get (key : string) (s : Store) : string * error :=
  match data s !! key with
  | None => ("", ErrorNotFound)
  | Some val => (val, ErrNil)
  end.

Definition Restore (d : gmap string string) (s : Store) : Store := mkStore (wal s) d.

End Store.

(** ** The metrics of a node (package server, metrics.go) *)

Module Metrics.

(** The counters are [int64], a latency is a [time.Duration] (an [int64]
    of nanoseconds) and [startTime] a reading of the clock, which is an
    input of the model. *)
Record Metrics := mkMetrics {
  totalRequests : Z;
  successCount : Z;
  failCount : Z;
  latencies : list Z;
  startTime : Z
}.

Definition NewMetrics (now : Z) : Metrics := mkMetrics 0 0 0 [] now.

Definition RecordSuccess (latency : Z) (m : Metrics) : Metrics :=
  mkMetrics (GoInt.add (totalRequests m) 1) (GoInt.add (successCount m) 1)
            (failCount m) (latencies m ++ [latency]) (startTime m).

Definition RecordFailure (m : Metrics) : Metrics :=
  mkMetrics (GoInt.add (totalRequests m) 1) (successCount m)
            (GoInt.add (failCount m) 1) (latencies m) (startTime m).

Definition Reset (now : Z) (m : Metrics) : Metrics := mkMetrics 0 0 0 [] now.

Inductive MetricsOp :=
| DoRecordSuccess (latency : Z)
| DoRecordFailure
| DoReset (now : Z).

Definition apply_op (m : Metrics) (op : MetricsOp) : Metrics :=
  match op with
  | DoRecordSuccess latency => RecordSuccess latency m
  | DoRecordFailure => RecordFailure m
  | DoReset now => Reset now m
  end.

(** [l[i]]: an index out of range panics. *)
Definition index (l : list Z) (i : Z) : result Z :=
  if decide (0 <= i < len l) then
    match l !! Z.to_nat i with
    | Some x => Ok x
    | None => Panic
    end
  else Panic.

(** [sort.Slice(sorted, func(i, j int) bool { return sorted[i] < sorted[j] })]
    on a copy of the latencies: the ascending arrangement. *)
Definition sorted_latencies (m : Metrics) : list Z := merge_sort Z.le (latencies m).

(** [for _, l := range sorted { total += l }]. *)
Definition total_latency (sorted : list Z) : Z := foldl GoInt.add 0 sorted.

(** [Duration.Microseconds]. *)
Definition Microseconds (d : Z) : Z := Z.quot d 1000.

(** [len(sorted)*pct/100]. *)
Definition percentile_index (n pct : Z) : Z := Z.quot (GoInt.wrap (n * pct)) 100.

(** [p99Idx], with its clamp. *)
Definition p99Idx (n : Z) : Z :=
  let i := percentile_index n 99 in
  if decide (i >= n) then n - 1 else i.

(** The latency part of [GetSnapshot], up to the conversion of each value
    to [float64] milliseconds: the total and the percentiles 50, 95 and 99
    in whole microseconds; [None] when no latency was recorded (the
    fields stay zero). *)
Record Percentiles := mkPercentiles {
  total_us : Z;
  p50_us : Z;
  p95_us : Z;
  p99_us : Z
}.

Definition snapshot_latencies (m : Metrics) : result (option Percentiles) :=
  if decide (len (latencies m) > 0) then
    let sorted := sorted_latencies m in
    let n := len sorted in
    match index sorted (percentile_index n 50),
          index sorted (percentile_index n 95),
          index sorted (p99Idx n) with
    | Ok a, Ok b, Ok c =>
        Ok (Some (mkPercentiles (Microseconds (total_latency sorted))
                    (Microseconds a) (Microseconds b) (Microseconds c)))
    | _, _, _ => Panic
    end
  else Ok None.

End Metrics.

(** ** The command router (package server) *)

Module Server.

Import Raft Wal Store.

(** [strings.Join(elems, sep)]. *)
Fixpoint Join (elems : list string) (sep : string) : string :=
  match elems with
  | [] => ""
  | [e] => e
  | e :: rest => e +:+ sep +:+ Join rest sep
  end.

Record Server := mkServer {
  store : Store;
  raft : Consensus
}.

Section Router.

(** [strings.Fields] of Go's library: the fields of a line between runs of
    white space. *)
Variable Fields : string -> list string.

(** The body of [for _, entry := range unapplied]; the result of
    [s.store.Set] is dropped. *)
Definition apply_entry (s : Store) (e : LogEntry) : Store :=
  match Fields (Command e) with
  | c0 :: c1 :: c2 :: rest =>
      if decide (c0 = "SET") then fst (Set_ c1 (Join (c2 :: rest) " ") s) else s
  | _ => s
  end.



(** The APPENDENTRIES branch of [handleConnection], once the header and
    the entries have been read. *)
Definition serve_AppendEntries
    (term : Z) (leaderID : string) (prevLogIndex : Z) (newEntries : list LogEntry)
    (srv : Server) : result (Server * Response) :=
  let '(c1, success) :=
    HandleAppendEntriesIncremental term leaderID prevLogIndex newEntries (raft srv) in
  if success then
    match GetUnappliedEntries c1 with
    | Panic => Panic
    | Ok (c2, unapplied) =>
        Ok (mkServer (foldl apply_entry (store srv) unapplied) c2, SUCCESS)
    end
  else Ok (mkServer (store srv) c1, CONFLICT).

End Router.

(** The fields of the Go [Server] beside the store and the consensus
    module. *)
Record Router := mkRouter {
  base : Server;
  peers : list string;
  metrics : Metrics.Metrics
}.

(** [fmt.Fprintln(conn, s)] writes [s] and a newline. *)
Definition Fprintln (s : string) : string := s +:+ String "010"%char EmptyString.

(** The SET branch for the fields [parts] of a line; [latency] is what
    [time.Since(opStart)] reads.  The result: the new state, the bytes
    written to the connection, and whether the connection is kept (the
    branch returns on a bad arity).  The results of [Replicate] and of
    [s.store.Set] are dropped. *)
Definition serve_SET (parts : list string) (latency : Z) (r : Router)
  : Router * string * bool :=
  match parts with
  | _ :: key :: v0 :: rest =>
      let value := Join (v0 :: rest) " " in
      if decide (GetState (raft (base r)) = "Leader") then
        let c1 := fst (Replicate ("SET " +:+ key +:+ " " +:+ value) (raft (base r))) in
        let st1 := fst (Set_ key value (store (base r))) in
        (mkRouter (mkServer st1 c1) (peers r)
                  (Metrics.RecordSuccess latency (metrics r)), Fprintln "OK", true)
      else (r, Fprintln "NOTLEADER", true)
  | _ => (r, Fprintln "ERR Usage: SET key value", false)
  end.

(** The GET branch; the usage message is written without newline. *)
Definition serve_GET (parts : list string) (latency : Z) (r : Router)
  : Router * string :=
  match parts with
  | _ :: key :: _ =>
      let '(val, err) := Get key (store (base r)) in
      (mkRouter (base r) (peers r) (Metrics.RecordSuccess latency (metrics r)),
       Fprintln (match err with ErrNil => val | Err _ => "(nil)" end))
  | _ => (r, "ERR usage: GET key")
  end.

(** The JOIN branch, with [Server.Join]. *)
Definition serve_JOIN (parts : list string) (r : Router) : Router * string :=
  match parts with
  | [_; address] =>
      (mkRouter (base r) (peers r ++ [address]) (metrics r), Fprintln "OK")
  | _ => (r, Fprintln "ERR usage: JOIN address")
  end.

(** The VOTEREQUEST branch: the line written back. *)
Definition serve_VoteRequest (term : Z) (candidateID : string) (srv : Server)
  : Server * string :=
  let '(c1, granted) := HandleRequestVote term candidateID (raft srv) in
  (mkServer (store srv) c1, if granted then "VOTEGRANTED" else "VOTEDENIED").

End Server.

(** ** A cluster of nodes *)

Module Cluster.

Import Raft.

(** A [runCandidate] in progress at a node: the term it campaigns for, its
    tally, and the peers whose [requestVoteFromPeer] has not run yet. *)
Record Election := mkElection {
  el_term : Z;
  el_votes : Z;
  el_waiting : list string
}.

Record Node := mkNode {
  cons : Consensus;
  election : option Election
}.

(** The steps of a cluster; nodes are named by their position. *)
Inductive Event :=
| FollowerTimeout (i : nat)
| BeginElection (i : nat)
| VoteRequest (i j : nat)
| CandidateTimedOut (i : nat)
| Heartbeat (i j : nat).

Definition remove_peer (p : string) (l : list string) : list string :=
  filter (fun q => q ≠ p) l.

Definition step (ev : Event) (cl : list Node) : option (list Node) :=
  match ev with
  | FollowerTimeout i =>
      (* the election timer of [runFollower] fires *)
      n ← cl !! i;
      if decide (State (cons n) = Follower ∧ election n = None)
      then Some (<[i := mkNode (runFollower ElectionTimeout (cons n)) None]> cl)
      else None
  | BeginElection i =>
      (* [runCandidate] up to the launch of the vote requests *)
      n ← cl !! i;
      if decide (State (cons n) = Candidate ∧ election n = None ∧ paused (cons n) = false)
      then
        let '(c1, votes, term) := candidate_begin (cons n) in
        Some (<[i := mkNode c1 (Some (mkElection term votes (Peers c1)))]> cl)
      else None
  | VoteRequest i j =>
      (* [requestVoteFromPeer] of node i for node j, the VOTEREQUEST branch
         at node j, and the reply read from [voteCh] at node i *)
      ni ← cl !! i;
      nj ← cl !! j;
      e ← election ni;
      if decide (i ≠ j ∧ ID (cons nj) ∈ el_waiting e)
      then
        let '(cj, granted) := HandleRequestVote (el_term e) (ID (cons ni)) (cons nj) in
        let '(ci, votes, returned) := candidate_on_vote granted (el_votes e) (cons ni) in
        let el :=
          if returned then None
          else Some (mkElection (el_term e) votes
                       (remove_peer (ID (cons nj)) (el_waiting e))) in
        Some (<[i := mkNode ci el]> (<[j := mkNode cj (election nj)]> cl))
      else None
  | CandidateTimedOut i =>
      n ← cl !! i;
      e ← election n;
      Some (<[i := mkNode (candidate_on_timeout (cons n)) None]> cl)
  | Heartbeat i j =>
      (* one goroutine of the leader's [broadcastHeartbeat], the
         APPENDENTRIES branch at node j (the handler and, after SUCCESS,
         [GetUnappliedEntries], whose entries go to the store), and the
         reply back at node i *)
      ni ← cl !! i;
      nj ← cl !! j;
      if decide (i ≠ j ∧ State (cons ni) = Leader ∧ paused (cons ni) = false
                 ∧ ID (cons nj) ∈ Peers (cons ni))
      then
        let '(term, leaderID, logLen) := heartbeat_snapshot (cons ni) in
        match heartbeat_prepare (ID (cons nj)) term leaderID logLen (cons ni) with
        | Panic => None
        | Ok (ci1, msg) =>
            let '(cj, success) :=
              HandleAppendEntriesIncremental (aeTerm msg) (aeLeaderID msg)
                (aePrevLogIndex msg) (aeEntries msg) (cons nj) in
            let response := if success then SUCCESS else CONFLICT in
            let ci2 := heartbeat_response (ID (cons nj)) logLen response ci1 in
            let applied :=
              if success then GetUnappliedEntries cj else Ok (cj, []) in
            match applied with
            | Panic => None
            | Ok (cj1, _) =>
                Some (<[i := mkNode ci2 (election ni)]>
                        (<[j := mkNode cj1 (election nj)]> cl))
            end
        end
      else None
  end.

Fixpoint run (evs : list Event) (cl : list Node) : option (list Node) :=
  match evs with
  | [] => Some cl
  | ev :: evs' => cl1 ← step ev cl; run evs' cl1
  end.

(** The cluster at start-up: every node knows the others as its peers. *)
Definition start (ids : list string) : list Node :=
  map (fun id => mkNode (NewConsensus id (remove_peer id ids)) None) ids.

Definition reachable (ids : list string) (cl : list Node) : Prop :=
  ∃ evs, run evs (start ids) = Some cl.

(** At most one leader for any term. *)
Definition election_safety (cl : list Node) : Prop :=
  ∀ i j ni nj,
    cl !! i = Some ni → cl !! j = Some nj →
    State (cons ni) = Leader → State (cons nj) = Leader →
    CurrentTerm (cons ni) = CurrentTerm (cons nj) →
    i = j.

End Cluster.

(** ** The commit rule and the quorum, in the specification's words *)

Module CommitRule.

Import Raft.




(** The quorum in the specification's words: the ceiling of (N + 1) / 2
    for a node with [N] peers. *)
Definition ceil_half (n : Z) : Z := - (- n / 2).
Definition spec_quorum (N : Z) : Z := ceil_half (N + 1).

End CommitRule.

(** * Properties *)

(** ** Go integers and slices *)

Section GoIntFacts.

Import GoInt.

Lemma wrap_in_range z : in_range z -> wrap z = z.
Proof.
  unfold in_range, min_int, max_int, wrap. intros H.
  rewrite Z.mod_small; lia.
Qed.

Lemma wrap_range z : in_range (wrap z).
Proof.
  unfold in_range, min_int, max_int, wrap.
  pose proof (Z.mod_pos_bound (z + 2 ^ 63) (2 ^ 64)). lia.
Qed.

Lemma add_small a b : in_range (a + b) -> add a b = a + b.
Proof. apply wrap_in_range. Qed.

Lemma sub_small a b : in_range (a - b) -> sub a b = a - b.
Proof. apply wrap_in_range. Qed.

Lemma len_nonneg {A} (l : list A) : 0 <= len l.
Proof. unfold len. lia. Qed.

Lemma len_app {A} (l k : list A) : len (l ++ k) = len l + len k.
Proof. unfold len. rewrite length_app. lia. Qed.

End GoIntFacts.

(** ** Votes *)

Section VoteFacts.

Import Raft.

(** A stale request changes nothing. *)
Lemma HandleRequestVote_stale term candidateID c :
  term < CurrentTerm c -> HandleRequestVote term candidateID c = (c, false).
Proof. intros H. unfold HandleRequestVote. by rewrite decide_True. Qed.

(** C7, as amended: the vote is granted exactly when the request's term is
    newer than [CurrentTerm], or equal to it with [VotedFor] empty or equal
    to the candidate; on every grant [CurrentTerm] is the request's term
    and [VotedFor] the candidate; a request with a newer term is always
    granted and makes the node a Follower. *)
Theorem HandleRequestVote_grant term candidateID c :
  let c' := fst (HandleRequestVote term candidateID c) in
  let granted := snd (HandleRequestVote term candidateID c) in
  (granted = true <->
     term > CurrentTerm c \/
     (term = CurrentTerm c /\ (VotedFor c = "" \/ VotedFor c = candidateID)))
  /\ (granted = true -> CurrentTerm c' = term /\ VotedFor c' = candidateID)
  /\ (term > CurrentTerm c -> granted = true /\ State c' = Follower).
Proof.
  unfold HandleRequestVote.
  destruct (decide (term < CurrentTerm c)) as [Hlt|Hge]; simpl.
  - repeat split; try discriminate; lia.
  - destruct (decide (term > CurrentTerm c)) as [Hgt|Hle]; simpl.
    + repeat split; auto.
    + assert (term = CurrentTerm c) as Heq by lia.
      destruct (decide (VotedFor c = "" ∨ VotedFor c = candidateID)) as [Hv|Hv]; simpl.
      * repeat split; auto; lia.
      * repeat split; try discriminate; try lia.
        intros [?|[_ ?]]; [lia | contradiction].
Qed.

(** C7, as stated, fails: a node that voted for [":8081"] in term 1 grants
    its vote to [":8082"] for term 2, although its [VotedFor] is neither
    empty nor the candidate; the newer term clears the vote first. *)
Lemma HandleRequestVote_grants_after_other_vote :
  let c0 := NewConsensus ":8080" [":8081"; ":8082"] in
  let d := fst (HandleRequestVote 1 ":8081" c0) in
  CurrentTerm d = 1 /\ VotedFor d = ":8081"
  /\ 2 >= CurrentTerm d
  /\ snd (HandleRequestVote 2 ":8082" d) = true
  /\ ~ (VotedFor d = "" \/ VotedFor d = ":8082").
Proof.
  intros c0 d. repeat split; try (by vm_compute).
  intros [H|H]; vm_compute in H; discriminate.
Qed.

(** A grant at the node's own term does not touch [State], unlike the
    grant of a newer term and unlike the two heartbeat handlers: a node
    that timed out after a heartbeat of term 1 is a Candidate of term 1
    that has not voted, grants its vote for term 1 and stays Candidate. *)
Lemma HandleRequestVote_equal_term_stays_candidate :
  let c0 := NewConsensus ":8080" [":8081"; ":8082"] in
  let c := runFollower ElectionTimeout
             (runFollower HeartbeatReceived
                (fst (HandleAppendEntriesIncremental 1 ":8081" (-1) [] c0))) in
  State c = Candidate /\ CurrentTerm c = 1 /\ VotedFor c = ""
  /\ snd (HandleRequestVote 1 ":8082" c) = true
  /\ State (fst (HandleRequestVote 1 ":8082" c)) = Candidate.
Proof. intros c0 c. repeat split; by vm_compute. Qed.

End VoteFacts.

(** ** A paused node *)

Section PauseFacts.

Import Raft.

(** [Resume] leaves a Follower that has not voted and is not paused. *)
Lemma Resume_follower c :
  State (Resume c) = Follower /\ VotedFor (Resume c) = "" /\ paused (Resume c) = false.
Proof. by unfold Resume. Qed.

(** A paused node rejects APPENDENTRIES and keeps its state. *)
Lemma paused_AppendEntries_ignored term leaderID prevLogIndex entries c :
  paused c = true ->
  HandleAppendEntriesIncremental term leaderID prevLogIndex entries c = (c, false).
Proof. intros H. unfold HandleAppendEntriesIncremental. by rewrite H. Qed.

(** C8: a paused node still reacts to VOTEREQUEST and HEARTBEAT.  The node
    [":8080"], paused in its initial state, grants its vote for term 1 to
    [":8081"] and moves to term 1; a heartbeat of term 1 moves it to term 1
    as well. *)
Theorem paused_node_reacts :
  let c := Pause (NewConsensus ":8080" [":8081"; ":8082"]) in
  paused c = true
  /\ HandleRequestVote 1 ":8081" c =
       (mkConsensus Follower 1 ":8080" [":8081"; ":8082"] ":8081" 1
          [] (-1) (-1) true ∅ ∅, true)
  /\ HandleHeartbeat 1 c =
       mkConsensus Follower 1 ":8080" [":8081"; ":8082"] "" 1
         [] (-1) (-1) true ∅ ∅
  /\ HandleHeartbeat 1 c <> c.
Proof.
  simpl. repeat split. intros H. inversion H.
Qed.

End PauseFacts.

(** ** Election safety *)

Section ElectionFacts.

Import Raft Cluster.

(** C1: election safety does not hold.  In a cluster of three nodes, [0]
    and [1] both start an election for term 1; node [2] votes for [0],
    which becomes Leader; the first heartbeat of [0] clears [VotedFor] at
    node [2] (same term); node [2] then votes for [1] as well, and [1]
    becomes Leader of term 1 too. *)
Theorem two_leaders_in_one_term :
  let ids := [":8080"; ":8081"; ":8082"] in
  let trace := [FollowerTimeout 0; BeginElection 0;
                FollowerTimeout 1; BeginElection 1;
                VoteRequest 0 2; Heartbeat 0 2; VoteRequest 1 2] in
  exists cl n0 n1,
    run trace (start ids) = Some cl
    /\ reachable ids cl
    /\ cl !! 0%nat = Some n0 /\ cl !! 1%nat = Some n1
    /\ State (cons n0) = Leader /\ State (cons n1) = Leader
    /\ CurrentTerm (cons n0) = 1 /\ CurrentTerm (cons n1) = 1
    /\ ~ election_safety cl.
Proof.
  intros ids trace.
  destruct (run trace (start ids)) as [cl|] eqn:Hrun; [|by vm_compute in Hrun].
  assert (exists n0 n1, cl !! 0%nat = Some n0 /\ cl !! 1%nat = Some n1
            /\ State (cons n0) = Leader /\ State (cons n1) = Leader
            /\ CurrentTerm (cons n0) = 1 /\ CurrentTerm (cons n1) = 1)
    as (n0 & n1 & H0 & H1 & Hs0 & Hs1 & Ht0 & Ht1).
  { vm_compute in Hrun. injection Hrun as <-.
    eexists _, _. repeat split; reflexivity. }
  exists cl, n0, n1. repeat split; try assumption.
  - by exists trace.
  - intros Hsafe.
    specialize (Hsafe 0%nat 1%nat n0 n1 H0 H1 Hs0 Hs1).
    rewrite Ht0, Ht1 in Hsafe. specialize (Hsafe eq_refl). discriminate.
Qed.

End ElectionFacts.

(** ** Follower side of APPENDENTRIES *)

Section AppendEntriesFacts.

Import Raft Server.

(** On a node that is not paused the handler refuses exactly the stale
    terms. *)
Lemma AppendEntries_refused_iff_stale term leaderID prevLogIndex entries c :
  paused c = false ->
  (snd (HandleAppendEntriesIncremental term leaderID prevLogIndex entries c) = false
   <-> term < CurrentTerm c).
Proof.
  intros Hp. unfold HandleAppendEntriesIncremental. rewrite Hp.
  destruct (decide (term < CurrentTerm c)); simpl.
  - tauto.
  - destruct (decide (len entries = 0)); simpl; split; (discriminate || tauto).
Qed.

(** An accepted call adopts the term, makes the node a Follower and clears
    its vote. *)
Lemma AppendEntries_accepted_state term leaderID prevLogIndex entries c :
  let c' := fst (HandleAppendEntriesIncremental term leaderID prevLogIndex entries c) in
  paused c = false -> ~ term < CurrentTerm c ->
  CurrentTerm c' = term /\ State c' = Follower /\ VotedFor c' = "".
Proof.
  intros c' Hp Hge. subst c'. unfold HandleAppendEntriesIncremental. rewrite Hp.
  destruct (decide (term < CurrentTerm c)); [contradiction|].
  by destruct (decide (len entries = 0)).
Qed.

(** With entries and a [prevLogIndex] inside the log, the log is cut after
    [prevLogIndex] and the entries follow. *)
Lemma AppendEntries_accepted_log term leaderID prevLogIndex entries c :
  let c' := fst (HandleAppendEntriesIncremental term leaderID prevLogIndex entries c) in
  paused c = false -> ~ term < CurrentTerm c -> entries <> [] ->
  len (Log c) <= GoInt.max_int ->
  -1 <= prevLogIndex < len (Log c) ->
  Log c' = take (Z.to_nat (prevLogIndex + 1)) (Log c) ++ entries.
Proof.
  intros c' Hp Hge Hne Hmax Hidx. subst c'.
  unfold HandleAppendEntriesIncremental. rewrite Hp.
  destruct (decide (term < CurrentTerm c)); [contradiction|].
  destruct (decide (len entries = 0)) as [Hz|_].
  { destruct entries; [contradiction | unfold len in Hz; simpl in Hz; lia]. }
  rewrite add_small by (unfold GoInt.in_range, GoInt.min_int, GoInt.max_int in *; lia).
  simpl.
  destruct (decide (prevLogIndex + 1 < 0)); [lia|].
  destruct (decide (prevLogIndex + 1 <= len (Log c))); [|lia].
  reflexivity.
Qed.

(** C6, as amended: on a node that is not paused, for a [prevLogIndex]
    whose successor is an [int], the handler refuses (CONFLICT on the
    wire) exactly when the term is older than [CurrentTerm], and then
    changes nothing; it does not compare [prevLogIndex] with its log.
    Otherwise it adopts the term, becomes Follower, clears [VotedFor] and
    accepts (SUCCESS); without entries the log is unchanged, with entries
    the log is the old log cut to length [prevLogIndex + 1] (to nothing
    when that is negative, not at all when it exceeds the length of the
    log) followed by the entries. *)
Theorem AppendEntries_contract term leaderID prevLogIndex entries c :
  paused c = false ->
  GoInt.min_int <= prevLogIndex < GoInt.max_int ->
  let c' := fst (HandleAppendEntriesIncremental term leaderID prevLogIndex entries c) in
  let ok := snd (HandleAppendEntriesIncremental term leaderID prevLogIndex entries c) in
  (ok = false <-> term < CurrentTerm c)
  /\ (ok = false -> c' = c)
  /\ (ok = true ->
        CurrentTerm c' = term /\ State c' = Follower /\ VotedFor c' = ""
        /\ (entries = [] -> Log c' = Log c)
        /\ (entries <> [] ->
              Log c' = take (Z.to_nat (Z.min (len (Log c)) (prevLogIndex + 1))) (Log c)
                         ++ entries))
  /\ (forall Fields srv srv' reply,
        raft srv = c ->
        serve_AppendEntries Fields term leaderID prevLogIndex entries srv
          = Ok (srv', reply) ->
        (reply = CONFLICT <-> term < CurrentTerm c)
        /\ (reply = SUCCESS <-> ~ term < CurrentTerm c)).
Proof.
  intros Hp Hrange c' ok. subst c' ok.
  assert (GoInt.add prevLogIndex 1 = prevLogIndex + 1) as Hadd.
  { apply add_small. unfold GoInt.in_range. lia. }
  split; [|split; [|split]].
  - by apply AppendEntries_refused_iff_stale.
  - unfold HandleAppendEntriesIncremental. rewrite Hp.
    destruct (decide (term < CurrentTerm c)); [done|].
    by destruct (decide (len entries = 0)).
  - unfold HandleAppendEntriesIncremental. rewrite Hp.
    destruct (decide (term < CurrentTerm c)); [discriminate|].
    destruct (decide (len entries = 0)) as [Hz|Hnz]; intros _.
    + repeat split; try done. intros Hne.
      destruct entries; [done | unfold len in Hz; simpl in Hz; lia].
    + rewrite Hadd. cbn [fst]. repeat split; try done.
      * intros ->. by unfold len in Hnz.
      * intros _. simpl. f_equal. unfold slice_to.
        pose proof (len_nonneg (Log c)) as Hlen.
        destruct (decide (prevLogIndex + 1 < 0)) as [Hneg|Hpos].
        -- rewrite decide_True by lia.
           replace (Z.to_nat (Z.min (len (Log c)) (prevLogIndex + 1))) with 0%nat by lia.
           done.
        -- destruct (decide (prevLogIndex + 1 <= len (Log c))) as [Hin|Hout].
           ++ by rewrite Z.min_r by lia.
           ++ rewrite Z.min_l by lia. symmetry. apply take_ge. unfold len. lia.
  - intros Fields srv srv' reply Hsrv Hserve.
    unfold serve_AppendEntries in Hserve. rewrite Hsrv in Hserve.
    pose proof (AppendEntries_refused_iff_stale term leaderID prevLogIndex entries c Hp)
      as Hiff.
    destruct (HandleAppendEntriesIncremental term leaderID prevLogIndex entries c)
      as [c1 [|]]; simpl in Hiff.
    + destruct (GetUnappliedEntries c1) as [[c2 unapplied]|]; [|discriminate].
      injection Hserve as _ <-.
      assert (~ term < CurrentTerm c) as Hn by (intros H; apply Hiff in H; discriminate).
      split; split; intros; try done; try tauto.
    + injection Hserve as _ <-.
      assert (term < CurrentTerm c) as Hlt by (by apply Hiff).
      split; split; intros; try done; try tauto.
Qed.

(** A follower of term 1 with two entries takes one entry after index 0:
    its second entry is replaced. *)
Lemma AppendEntries_contract_witness :
  let e1 := mkLogEntry 1 "SET a 1" in
  let e2 := mkLogEntry 1 "SET b 2" in
  let e3 := mkLogEntry 2 "SET c 3" in
  let c := mkConsensus Follower 1 ":8081" [":8080"; ":8082"] ":8080" 0
             [e1; e2] (-1) 1 false ∅ ∅ in
  (paused c = false /\ GoInt.min_int <= 0 < GoInt.max_int)
  /\ snd (HandleAppendEntriesIncremental 2 ":8080" 0 [e3] c) = true
  /\ Log (fst (HandleAppendEntriesIncremental 2 ":8080" 0 [e3] c)) = [e1; e3].
Proof.
  intros e1 e2 e3 c.
  assert (paused c = false) as H1 by reflexivity.
  assert (GoInt.min_int <= 0 < GoInt.max_int) as H2 by (by vm_compute).
  split; [auto|].
  destruct (AppendEntries_contract 2 ":8080" 0 [e3] c H1 H2) as (Hiff & _ & Hok & _).
  assert (snd (HandleAppendEntriesIncremental 2 ":8080" 0 [e3] c) = true) as Htrue.
  { destruct (snd (HandleAppendEntriesIncremental 2 ":8080" 0 [e3] c)); [done|].
    exfalso. assert (2 < CurrentTerm c) as Hlt by (by apply Hiff).
    vm_compute in Hlt. discriminate. }
  split; [exact Htrue|].
  destruct (Hok Htrue) as (_ & _ & _ & _ & Hlog).
  rewrite Hlog by discriminate. reflexivity.
Defined.

(** C6, as stated, fails: a call whose [prevLogIndex] lies beyond the end
    of the follower's log is answered SUCCESS.  The node [":8081"], with
    an empty log, receives from the leader of term 1 the entry of index 5
    ([prevLogIndex] 4): its log does not line up there, the entry becomes
    its entry of index 0. *)
Theorem AppendEntries_beyond_log_accepted :
  let c := NewConsensus ":8081" [":8080"; ":8082"] in
  let e := mkLogEntry 1 "SET a 1" in
  let r := HandleAppendEntriesIncremental 1 ":8080" 4 [e] c in
  paused c = false
  /\ ~ 1 < CurrentTerm c
  /\ ~ 4 < len (Log c)
  /\ snd r = true
  /\ Log (fst r) = [e]
  /\ forall Fields srv, raft srv = c ->
       exists srv', serve_AppendEntries Fields 1 ":8080" 4 [e] srv = Ok (srv', SUCCESS).
Proof.
  intros c e r. repeat split; try (vm_compute; congruence).
  intros Fields srv Hsrv. unfold serve_AppendEntries. rewrite Hsrv.
  eexists. vm_compute. reflexivity.
Qed.

End AppendEntriesFacts.

(** ** The write-ahead log *)

Section WalFacts.

Import Wal.

Lemma notify_lookup writeErr toFlush ch d :
  notify writeErr toFlush ch !! d =
    if decide (d ∈ map done toFlush) then Some writeErr else ch !! d.
Proof.
  unfold notify. revert ch.
  induction toFlush as [|pw rest IH]; intros ch.
  - destruct (decide (d ∈ map done [])) as [Hin|_]; [|done].
    by apply elem_of_nil in Hin.
  - change (foldl (fun m pw0 => <[done pw0:=writeErr]> m) (<[done pw:=writeErr]> ch) rest !! d
            = if decide (d ∈ done pw :: map done rest) then Some writeErr else ch !! d).
    rewrite IH.
    destruct (decide (d ∈ map done rest)) as [Hin|Hnin];
      destruct (decide (d ∈ done pw :: map done rest)) as [Hin'|Hnin']; try done.
    + exfalso. apply Hnin'. by apply elem_of_cons; right.
    + apply elem_of_cons in Hin' as [->|?]; [|contradiction].
      apply lookup_insert_eq.
    + apply lookup_insert_ne. intros <-. apply Hnin'. apply list_elem_of_here.
Qed.


(** Every waiter of the batch receives the batch's [writeErr]. *)
Lemma flush_receive w pw :
  pw ∈ pending w ->
  receive (done pw) (flush w) = Some (snd (write_batch (pending w) (file w))).
Proof.
  intros Hin. unfold flush, receive.
  destruct (pending w) as [|pw0 rest] eqn:Hp; [by apply elem_of_nil in Hin|].
  destruct (write_batch (pw0 :: rest) (file w)) as [f1 e].
  cbn [chans snd].
  rewrite notify_lookup.
  destruct (decide _) as [_|Hn]; [done|].
  exfalso. apply Hn. by apply (list_elem_of_fmap_2 done).
Qed.


(** [WriteEntry] returns: the flush that follows the enqueue signals the
    caller's channel with the batch's shared result. *)
Lemma WriteEntry_returns key value w :
  snd (WriteEntry key value w) =
    Some (snd (write_batch (pending w ++ [mkPendingWrite (format_entry key value) (next_chan w)])
                 (file w))).
Proof.
  unfold WriteEntry, enqueue.
  set (pw := mkPendingWrite _ _). set (w1 := mkWAL _ _ _ _). simpl.
  apply (flush_receive w1 pw). unfold w1. simpl. apply elem_of_app. right. apply list_elem_of_here.
Qed.

(** No file yields the empty map and no error. *)
Lemma Recover_missing fs filename :
  fs !! filename = None -> Recover fs filename = (Some ∅, ErrNil).
Proof. intros H. unfold Recover. by rewrite H. Qed.

(** A line without comma leaves the map as it is. *)
Lemma recover_line_no_comma data line :
  length (Split_comma line) = 1%nat -> recover_line data line = data.
Proof.
  unfold recover_line. destruct (Split_comma line) as [|k [|v [|x r]]]; simpl; try done.
Qed.

(** A line with one comma binds its key, over any earlier record. *)
Lemma recover_line_one_comma data line k v :
  Split_comma line = [k; v] -> recover_line data line !! k = Some v.
Proof. unfold recover_line. intros ->. apply lookup_insert_eq. Qed.

Lemma recover_lines_other data lines k :
  (forall l v, l ∈ lines -> Split_comma l <> [k; v]) ->
  foldl recover_line data lines !! k = data !! k.
Proof.
  revert data. induction lines as [|l lines IH]; intros data Hother; [done|].
  simpl. rewrite IH.
  - unfold recover_line.
    destruct (Split_comma l) as [|k' [|v' [|x r]]] eqn:Hs; try done.
    apply lookup_insert_ne. intros ->.
    by apply (Hother l v'); [apply list_elem_of_here|].
  - intros l' v' Hin. apply Hother. by apply elem_of_cons; right.
Qed.

(** Last writer wins among the lines with exactly one comma. *)
Lemma recover_last_wins data before line after k v :
  Split_comma line = [k; v] ->
  (forall l v', l ∈ after -> Split_comma l <> [k; v']) ->
  foldl recover_line data (before ++ line :: after) !! k = Some v.
Proof.
  intros Hline Hafter. rewrite foldl_app. simpl.
  rewrite recover_lines_other by done.
  by apply recover_line_one_comma.
Qed.

(** C4: a record whose value contains a comma is lost by [Recover].  The
    record that [WriteEntry "k" "a,b"] appends is the line [k,a,b];
    [strings.Split] cuts it in three parts and the line is skipped, so
    the recovered map is empty instead of binding [k] to [a,b]. *)
Theorem Recover_skips_value_with_comma :
  let line := format_entry "k" "a,b" in
  let fs : gmap string inode := {[ "server_8080.log" := Regular line ]} in
  scan_lines line = ["k,a,b"]
  /\ Split_comma "k,a,b" = ["k"; "a"; "b"]
  /\ Recover fs "server_8080.log" = (Some ∅, ErrNil)
  /\ (forall data, fst (Recover fs "server_8080.log") = Some data -> data !! "k" = None).
Proof.
  intros line fs.
  assert (Recover fs "server_8080.log" = (Some ∅, ErrNil)) as HR by (by vm_compute).
  repeat split; try (by vm_compute).
  intros data. rewrite HR. simpl. by intros [= <-].
Qed.

End WalFacts.

(** ** The store *)

Section StoreFacts.

Import Wal Store.

(** C3: [Set] returns, and returns what the WAL write returned; when the
    write fails the map is unchanged and every [Get] answers as before;
    [Set] fails only when the write does; on success the map binds the key
    to the value. *)
Theorem Set_atomic key value s :
  let s' := fst (Set_ key value s) in
  let r := snd (Set_ key value s) in
  let wr := snd (WriteEntry key value (wal s)) in
  (exists e, wr = Some e /\ r = Some e)
  /\ (forall msg, wr = Some (Err msg) ->
        r = Some (Err msg) /\ data s' = data s /\ forall k, Get k s' = Get k s)
  /\ (forall msg, r = Some (Err msg) -> wr = Some (Err msg))
  /\ (r = Some ErrNil ->
        data s' = <[key := value]> (data s) /\ Get key s' = (value, ErrNil)).
Proof.
  intros s' r wr. subst s' r wr. unfold Set_.
  pose proof (WriteEntry_returns key value (wal s)) as Hret.
  destruct (WriteEntry key value (wal s)) as [w1 [[|msg]|]]; simpl in *;
    [| |discriminate].
  - split; [by eexists|]. split; [discriminate|]. split; [discriminate|].
    intros _. split; [done|]. unfold Get. simpl. by rewrite lookup_insert_eq.
  - split; [by eexists|]. split; [|split; [done|discriminate]].
    intros msg' [= <-]. done.
Qed.

End StoreFacts.

(** ** The candidate's tally *)

Section QuorumFacts.

Import Raft CommitRule.

Lemma init_peer_fields c peer :
  State (init_peer c peer) = State c
  /\ CommitIndex (init_peer c peer) = CommitIndex c
  /\ lastApplied (init_peer c peer) = lastApplied c
  /\ Log (init_peer c peer) = Log c
  /\ Peers (init_peer c peer) = Peers c.
Proof. by unfold init_peer. Qed.

Lemma become_leader_fields c :
  State (become_leader c) = Leader
  /\ CommitIndex (become_leader c) = CommitIndex c
  /\ lastApplied (become_leader c) = lastApplied c.
Proof.
  unfold become_leader.
  assert (forall peers c0,
            State (foldl init_peer c0 peers) = State c0
            /\ CommitIndex (foldl init_peer c0 peers) = CommitIndex c0
            /\ lastApplied (foldl init_peer c0 peers) = lastApplied c0) as H.
  { induction peers as [|p peers IH]; intros c0; [done|].
    simpl. destruct (IH (init_peer c0 p)) as (-> & -> & ->).
    by destruct (init_peer_fields c0 p) as (-> & -> & -> & _). }
  destruct (H (Peers c) (set_State Leader c)) as (-> & -> & ->). done.
Qed.

(** The quorum is the least strict majority of the cluster. *)
Lemma quorum_strict_majority c :
  2 * quorum c > len (Peers c) + 1 /\ 2 * (quorum c - 1) <= len (Peers c) + 1.
Proof.
  unfold quorum. pose proof (len_nonneg (Peers c)).
  rewrite Z.quot_div_nonneg by lia.
  pose proof (Z.div_mod (len (Peers c) + 1) 2).
  pose proof (Z.mod_pos_bound (len (Peers c) + 1) 2).
  lia.
Qed.

Lemma candidate_loop_tally replies : forall votes c,
  votes < quorum c ->
  0 <= votes -> votes + len replies <= GoInt.max_int ->
  let c' := fst (candidate_loop (map VoteReply replies ++ [CandidateTimeout]) votes c) in
  (State c' = Leader <-> votes + granted_count replies >= quorum c)
  /\ (votes + granted_count replies < quorum c -> State c' = Follower).
Proof.
  induction replies as [|g replies IH]; intros votes c Hlt Hpos Hmax.
  - simpl. unfold granted_count, len. simpl. split; [|done].
    split; [discriminate | lia].
  - assert (len (g :: replies) = 1 + len replies) as Hlen by (unfold len; simpl; lia).
    pose proof (len_nonneg replies) as Hrep.
    assert (0 <= granted_count replies) as Hcnt by apply len_nonneg.
    assert (granted_count (g :: replies) =
              (if g then 1 else 0) + granted_count replies) as Hg.
    { unfold granted_count. destruct g.
      - rewrite filter_cons_True by done. unfold len. simpl. lia.
      - rewrite filter_cons_False by done. lia. }
    cbn [map app candidate_loop]. unfold candidate_on_vote.
    assert ((if g then GoInt.add votes 1 else votes) = votes + (if g then 1 else 0))
      as Hadd.
    { destruct g; [|lia]. apply add_small.
      unfold GoInt.in_range, GoInt.min_int, GoInt.max_int in *. lia. }
    rewrite Hadd, Hg.
    destruct (decide (votes + (if g then 1 else 0) >= quorum c)) as [Hq|Hq].
    + cbn [fst]. destruct (become_leader_fields c) as (-> & _).
      split; [split; [lia|done] | lia].
    + specialize (IH (votes + (if g then 1 else 0)) c).
      cbn zeta in IH. cbn [fst]. rewrite !Z.add_assoc.
      apply IH; destruct g; lia.
Qed.

(** C10, as amended: in a cluster of [N >= 1] peers, a candidate that is
    not paused ends its election as Leader exactly when its tally, the
    self-vote included, reaches [(N + 1) / 2 + 1] (integer division), which
    is the least strict majority of the [N + 1] nodes; with a smaller tally
    at the timeout it ends as Follower. *)
Theorem runCandidate_quorum c replies :
  paused c = false ->
  1 <= len (Peers c) ->
  len replies <= len (Peers c) < GoInt.max_int ->
  let N := len (Peers c) in
  let q := Z.quot (N + 1) 2 + 1 in
  let tally := 1 + granted_count replies in
  let c' := fst (runCandidate (map VoteReply replies ++ [CandidateTimeout]) c) in
  (State c' = Leader <-> tally >= q)
  /\ (tally < q -> State c' = Follower)
  /\ 2 * q > N + 1
  /\ 2 * (q - 1) <= N + 1.
Proof.
  intros Hp HN Hbound N q tally c'. subst N q tally c'.
  unfold runCandidate, IsPaused. rewrite Hp. cbn [candidate_begin].
  set (c1 := set_VotedFor _ _).
  assert (quorum c1 = Z.quot (len (Peers c) + 1) 2 + 1) as Hq by done.
  pose proof (quorum_strict_majority c1) as Hmaj. rewrite Hq in Hmaj.
  change (Peers c1) with (Peers c) in Hmaj.
  rewrite <- Hq.
  destruct (candidate_loop_tally replies 1 c1) as [Hiff Hfol]; try lia.
  repeat split; try apply Hiff; try apply Hfol; try lia.
Qed.

(** A cluster of five nodes: the third vote makes the Leader. *)
Lemma runCandidate_quorum_witness :
  let c := set_State Candidate
             (NewConsensus ":8080" [":8081"; ":8082"; ":8083"; ":8084"]) in
  let replies := [true; false; true] in
  (paused c = false
   /\ 1 <= len (Peers c)
   /\ len replies <= len (Peers c) < GoInt.max_int)
  /\ State (fst (runCandidate (map VoteReply replies ++ [CandidateTimeout]) c)) = Leader.
Proof.
  intros c replies.
  assert (paused c = false) as H1 by reflexivity.
  assert (1 <= len (Peers c)) as H2 by (vm_compute; discriminate).
  assert (len replies <= len (Peers c) < GoInt.max_int) as H3
    by (vm_compute; split; [discriminate | reflexivity]).
  split; [auto|].
  apply (runCandidate_quorum c replies H1 H2 H3). vm_compute. discriminate.
Defined.

(** A node without peers never reads a reply, so the tally is never
    compared with the quorum: the election ends at the timeout. *)
Lemma runCandidate_no_peers c :
  paused c = false ->
  State (fst (runCandidate [CandidateTimeout] c)) = Follower.
Proof. intros Hp. unfold runCandidate, IsPaused. by rewrite Hp. Qed.

(** C10, as stated, fails: with three peers the ceiling of (N + 1) / 2 is
    2, and a candidate whose tally is 2 at the timeout ends as Follower;
    the code asks for 3 of the 4 nodes. *)
Lemma ceiling_tally_elects_nobody :
  let c := set_State Candidate (NewConsensus ":8080" [":8081"; ":8082"; ":8083"]) in
  let replies := [true; false; false] in
  spec_quorum (len (Peers c)) = 2
  /\ 1 + granted_count replies = 2
  /\ quorum c = 3
  /\ State (fst (runCandidate (map VoteReply replies ++ [CandidateTimeout]) c)) = Follower.
Proof. by vm_compute. Qed.

End QuorumFacts.

(** ** Commit index and applied index *)

Section CommitFacts.

Import Raft CommitRule Server.

(** [GetUnappliedEntries] panics exactly when [lastApplied] is below -1;
    otherwise it returns the entries after [lastApplied], up to the end of
    the log and in the order of the log, and moves [lastApplied] to the
    end of the log. *)
Lemma GetUnappliedEntries_spec c :
  (lastApplied c < -1 /\ GetUnappliedEntries c = Panic)
  \/ (-1 <= lastApplied c
      /\ exists c' entries,
           GetUnappliedEntries c = Ok (c', entries)
           /\ entries = drop (Z.to_nat (lastApplied c + 1)) (Log c)
           /\ lastApplied c' = Z.max (lastApplied c) (len (Log c) - 1)
           /\ CommitIndex c' = CommitIndex c
           /\ Log c' = Log c).
Proof.
  unfold GetUnappliedEntries. pose proof (len_nonneg (Log c)) as Hlen.
  destruct (decide (lastApplied c >= len (Log c) - 1)) as [Hge|Hlt].
  - right. split; [lia|]. exists c, []. repeat split; [|lia].
    symmetry. apply drop_ge. unfold len in *. lia.
  - destruct (decide (lastApplied c + 1 < 0)) as [Hneg|Hpos].
    + left. split; [lia | done].
    + right. split; [lia|]. eexists _, _. split; [reflexivity|].
      repeat split. simpl. lia.
Qed.


Lemma exec_keeps_indices op c c' :
  op <> OpGetUnappliedEntries -> op <> OpClearLog ->
  exec op c = Ok c' ->
  lastApplied c' = lastApplied c /\ CommitIndex c' = CommitIndex c.
Proof.
  intros Hop1 Hop2 Hex.
  destruct op as [ | | ev | evs | | | p term leaderID logLen | p logLen response
                 | command | term candidateID | term | | | | | | |
                 | command | term leaderID prevLogIndex entries ];
    simpl in Hex; try congruence; try (injection Hex as <-); try done.
  - unfold runFollower. destruct (IsPaused c); [done|]. by destruct ev.
  - unfold runCandidate. destruct (IsPaused c); [done|].
    cbn [candidate_begin]. set (c1 := set_VotedFor _ _).
    change (lastApplied c) with (lastApplied c1).
    change (CommitIndex c) with (CommitIndex c1).
    generalize 1 as votes. generalize c1 as c0. clear.
    induction evs as [|[g|] evs IH]; intros c0 votes; simpl; [done| |done].
    unfold candidate_on_vote.
    destruct (decide (_ >= quorum c0)); [|apply IH].
    simpl. by destruct (become_leader_fields c0) as (_ & -> & ->).
  - unfold heartbeat_prepare in Hex.
    repeat (case_decide; simpl in Hex); try congruence; by injection Hex as <-.
  - unfold heartbeat_response. destruct response; [done| |done]. by case_decide.
  - unfold Replicate. by case_decide.
  - unfold HandleRequestVote. by repeat case_decide.
  - unfold HandleHeartbeat. by case_decide.
  - unfold AddLogEntry. by destruct (paused c).
  - unfold HandleAppendEntriesIncremental. destruct (paused c); [done|].
    by repeat case_decide.
Qed.

(** C9, as amended: [lastApplied <= CommitIndex] holds in the initial
    state and every operation of [Consensus] other than
    [GetUnappliedEntries] preserves it, [ClearLog] included;
    [GetUnappliedEntries] leaves [CommitIndex] as it is and raises
    [lastApplied] to [len(Log) - 1] when that is larger. *)
Theorem apply_commit_invariant :
  (forall id peers,
     lastApplied (NewConsensus id peers) <= CommitIndex (NewConsensus id peers))
  /\ (forall op c c',
        op <> OpGetUnappliedEntries ->
        lastApplied c <= CommitIndex c ->
        exec op c = Ok c' ->
        lastApplied c' <= CommitIndex c')
  /\ (forall c c',
        exec OpGetUnappliedEntries c = Ok c' ->
        CommitIndex c' = CommitIndex c
        /\ lastApplied c' = Z.max (lastApplied c) (len (Log c) - 1)).
Proof.
  split; [|split].
  - intros id peers. simpl. lia.
  - intros op c c' Hop Hinv Hex.
    assert (op = OpClearLog \/ op <> OpClearLog) as [->|Hclear]
      by (destruct op; (by left) || (by right)).
    + injection Hex as <-. simpl. lia.
    + destruct (exec_keeps_indices op c c' Hop Hclear Hex) as [-> ->]. done.
  - intros c c' Hex. simpl in Hex.
    destruct (GetUnappliedEntries_spec c) as [[_ Hp]|(_ & c2 & es & Heq & _ & Hla & Hci & _)].
    + rewrite Hp in Hex. congruence.
    + rewrite Heq in Hex. injection Hex as <-. done.
Qed.

(** C9, as stated, fails: a follower in its initial state stores one entry
    of the leader, and [GetUnappliedEntries] moves [lastApplied] to 0 while
    [CommitIndex] stays -1. *)
Lemma lastApplied_overtakes_CommitIndex :
  let e := mkLogEntry 1 "SET a 1" in
  let c0 := NewConsensus ":8081" [":8080"; ":8082"] in
  let c1 := fst (HandleAppendEntriesIncremental 1 ":8080" (-1) [e] c0) in
  lastApplied c0 <= CommitIndex c0
  /\ lastApplied c1 <= CommitIndex c1
  /\ exec OpGetUnappliedEntries c1 = Ok (set_lastApplied 0 c1)
  /\ lastApplied (set_lastApplied 0 c1) = 0
  /\ CommitIndex (set_lastApplied 0 c1) = -1
  /\ ~ lastApplied (set_lastApplied 0 c1) <= CommitIndex (set_lastApplied 0 c1).
Proof.
  intros e c0 c1. repeat split; try (by vm_compute).
Qed.

End CommitFacts.

(** ** Further properties of the consensus module *)

Section ConsensusFacts.

Import Raft.

Lemma foldl_init_peer_fields peers : forall c,
  State (foldl init_peer c peers) = State c
  /\ CurrentTerm (foldl init_peer c peers) = CurrentTerm c
  /\ VotedFor (foldl init_peer c peers) = VotedFor c
  /\ Log (foldl init_peer c peers) = Log c
  /\ Peers (foldl init_peer c peers) = Peers c
  /\ ID (foldl init_peer c peers) = ID c
  /\ paused (foldl init_peer c peers) = paused c.
Proof.
  induction peers as [|p peers IH]; intros c; [done|].
  simpl. destruct (IH (init_peer c p)) as (-> & -> & -> & -> & -> & -> & ->).
  done.
Qed.

Lemma foldl_init_peer_maps peers : forall c p,
  nextIndex (foldl init_peer c peers) !! p =
    (if decide (p ∈ peers) then Some (len (Log c)) else nextIndex c !! p)
  /\ matchIndex (foldl init_peer c peers) !! p =
    (if decide (p ∈ peers) then Some (-1) else matchIndex c !! p).
Proof.
  induction peers as [|q peers IH]; intros c p.
  - destruct (decide (p ∈ [])) as [Hin|_]; [by apply elem_of_nil in Hin | done].
  - change (foldl init_peer c (q :: peers)) with (foldl init_peer (init_peer c q) peers).
    destruct (IH (init_peer c q) p) as [-> ->].
    change (Log (init_peer c q)) with (Log c).
    destruct (decide (p ∈ peers)) as [Hin|Hnin];
      destruct (decide (p ∈ q :: peers)) as [Hin'|Hnin']; try done.
    + exfalso. apply Hnin'. by apply elem_of_cons; right.
    + apply elem_of_cons in Hin' as [->|?]; [|contradiction].
      unfold init_peer. simpl. by rewrite !lookup_insert_eq.
    + assert (q <> p) by (intros ->; apply Hnin'; apply list_elem_of_here).
      unfold init_peer. simpl. by rewrite !lookup_insert_ne.
Qed.

(** X1: A node that wins its election is Leader, expects every peer to need
    the entry after its own last one and knows of no replicated entry;
    what it recorded for nodes that are not its peers, its term, its vote
    and its log are left as they were. *)
Theorem become_leader_initialises_peers c :
  State (become_leader c) = Leader
  /\ (forall p, p ∈ Peers c ->
        nextIndex (become_leader c) !! p = Some (len (Log c))
        /\ matchIndex (become_leader c) !! p = Some (-1))
  /\ (forall p, p ∉ Peers c ->
        nextIndex (become_leader c) !! p = nextIndex c !! p
        /\ matchIndex (become_leader c) !! p = matchIndex c !! p)
  /\ CurrentTerm (become_leader c) = CurrentTerm c
  /\ VotedFor (become_leader c) = VotedFor c
  /\ Log (become_leader c) = Log c.
Proof.
  unfold become_leader.
  destruct (foldl_init_peer_fields (Peers c) (set_State Leader c))
    as (-> & -> & -> & -> & _).
  repeat split; try done.
  - destruct (foldl_init_peer_maps (Peers c) (set_State Leader c) p) as [-> _].
    by rewrite decide_True.
  - destruct (foldl_init_peer_maps (Peers c) (set_State Leader c) p) as [_ ->].
    by rewrite decide_True.
  - destruct (foldl_init_peer_maps (Peers c) (set_State Leader c) p) as [-> _].
    by rewrite decide_False.
  - destruct (foldl_init_peer_maps (Peers c) (set_State Leader c) p) as [_ ->].
    by rewrite decide_False.
Qed.

Lemma candidate_loop_keeps evs : forall votes c,
  let c' := fst (candidate_loop evs votes c) in
  CurrentTerm c' = CurrentTerm c /\ VotedFor c' = VotedFor c /\ Log c' = Log c
  /\ (State c' = Leader \/ State c' = Follower \/ State c' = State c).
Proof.
  induction evs as [|[g|] evs IH]; intros votes c; simpl.
  - tauto.
  - unfold candidate_on_vote.
    destruct (decide (_ >= quorum c)) as [Hq|Hq]; [|apply IH].
    simpl. unfold become_leader.
    destruct (foldl_init_peer_fields (Peers c) (set_State Leader c))
      as (-> & -> & -> & -> & _).
    simpl. tauto.
  - simpl. tauto.
Qed.

(** An election that no other call interrupts raises the term by one,
    records the node's vote for itself and leaves the log alone. *)
Lemma runCandidate_alone evs c :
  paused c = false ->
  GoInt.min_int <= CurrentTerm c < GoInt.max_int ->
  let c' := fst (runCandidate evs c) in
  CurrentTerm c' = CurrentTerm c + 1
  /\ VotedFor c' = ID c
  /\ Log c' = Log c
  /\ (State c' = Leader \/ State c' = Follower \/ State c' = State c).
Proof.
  intros Hp Hrange c'. subst c'. unfold runCandidate, IsPaused. rewrite Hp.
  cbn [candidate_begin].
  set (c1 := set_VotedFor _ _).
  destruct (candidate_loop_keeps evs 1 c1) as (-> & -> & -> & Hst).
  unfold c1. simpl. repeat split; [|done].
  apply add_small. unfold GoInt.in_range. lia.
Qed.

(** Apart from the first critical section of [runCandidate], whose
    increment can wrap, no operation lowers the term. *)
Lemma exec_other_term_le op c c' :
  (forall evs, op <> OpRunCandidate evs) ->
  exec op c = Ok c' ->
  CurrentTerm c <= CurrentTerm c'.
Proof.
  intros Hop Hex.
  destruct op as [ | | ev | evs | | | p term leaderID logLen | p logLen response
                 | command | term candidateID | term | | | | | | |
                 | command | term leaderID prevLogIndex entries ];
    simpl in Hex; try (injection Hex as <-); try (simpl; lia).
  - unfold GetUnappliedEntries in Hex.
    repeat (case_decide; simpl in Hex); try congruence;
      injection Hex as <-; simpl; lia.
  - unfold runFollower. destruct (IsPaused c); [lia|]. destruct ev; simpl; lia.
  - by destruct (Hop evs).
  - unfold heartbeat_prepare in Hex.
    repeat (case_decide; simpl in Hex); try congruence;
      injection Hex as <-; simpl; lia.
  - unfold heartbeat_response. destruct response; simpl; try lia.
    case_decide; simpl; lia.
  - unfold Replicate. case_decide; simpl; lia.
  - unfold HandleRequestVote. repeat case_decide; simpl; lia.
  - unfold HandleHeartbeat. case_decide; simpl; lia.
  - unfold AddLogEntry. destruct (paused c); simpl; lia.
  - unfold HandleAppendEntriesIncremental. destruct (paused c); [simpl; lia|].
    repeat case_decide; simpl; lia.
Qed.

(** X3: No operation lowers the term of a node whose term is below the
    largest integer. *)
Theorem CurrentTerm_never_decreases op c c' :
  GoInt.min_int <= CurrentTerm c < GoInt.max_int ->
  exec op c = Ok c' ->
  CurrentTerm c <= CurrentTerm c'.
Proof.
  intros Hrange Hex.
  assert ((exists evs, op = OpRunCandidate evs) \/ (forall evs, op <> OpRunCandidate evs))
    as [[evs ->]|Hother].
  { destruct op; try (by right); left; by eexists. }
  - simpl in Hex. injection Hex as <-.
    destruct (paused c) eqn:Hp.
    + unfold runCandidate, IsPaused. rewrite Hp. simpl. lia.
    + destruct (runCandidate_alone evs c Hp Hrange) as (-> & _). lia.
  - by apply (exec_other_term_le op).
Qed.

Lemma CurrentTerm_never_decreases_witness :
  let c := NewConsensus ":8080" [":8081"; ":8082"] in
  GoInt.min_int <= CurrentTerm c < GoInt.max_int
  /\ CurrentTerm c <= CurrentTerm (fst (HandleRequestVote 3 ":8081" c)).
Proof.
  intros c.
  assert (GoInt.min_int <= CurrentTerm c < GoInt.max_int) as H
    by (vm_compute; split; [discriminate | reflexivity]).
  split; [exact H|].
  exact (CurrentTerm_never_decreases (OpHandleRequestVote 3 ":8081") c _ H eq_refl).
Defined.





End ConsensusFacts.

Section VoteOnceFacts.

Import Raft.

(** X4: Once a node has granted its vote for a term to a named candidate, a
    request of any other candidate for that term is denied and changes
    nothing, while the same candidate is granted again. *)
Theorem one_vote_per_term term candidateID other c c1 :
  candidateID <> "" ->
  other <> candidateID ->
  HandleRequestVote term candidateID c = (c1, true) ->
  HandleRequestVote term other c1 = (c1, false)
  /\ snd (HandleRequestVote term candidateID c1) = true.
Proof.
  intros Hne Hother Hvote.
  assert (CurrentTerm c1 = term /\ VotedFor c1 = candidateID) as [Ht Hv].
  { unfold HandleRequestVote in Hvote.
    destruct (decide (term < CurrentTerm c)); [congruence|].
    destruct (decide (term > CurrentTerm c)); simpl in Hvote.
    - injection Hvote as <-. done.
    - destruct (decide (VotedFor c = "" ∨ VotedFor c = candidateID));
        [|congruence].
      injection Hvote as <-. simpl. split; [lia | done]. }
  unfold HandleRequestVote.
  destruct (decide (term < CurrentTerm c1)); [lia|].
  destruct (decide (term > CurrentTerm c1)); [lia|].
  cbn zeta. split.
  - destruct (decide (VotedFor c1 = "" ∨ VotedFor c1 = other)) as [[?|?]|_];
      congruence.
  - destruct (decide (VotedFor c1 = "" ∨ VotedFor c1 = candidateID)) as [_|Hn];
      [done|]. exfalso. apply Hn. by right.
Qed.

Lemma one_vote_per_term_witness :
  let c := NewConsensus ":8082" [":8080"; ":8081"] in
  let c1 := fst (HandleRequestVote 1 ":8080" c) in
  (":8080" <> "" /\ ":8081" <> ":8080" /\ HandleRequestVote 1 ":8080" c = (c1, true))
  /\ HandleRequestVote 1 ":8081" c1 = (c1, false).
Proof.
  intros c c1.
  assert (":8080" <> "") as H1 by discriminate.
  assert (":8081" <> ":8080") as H2 by discriminate.
  assert (HandleRequestVote 1 ":8080" c = (c1, true)) as H3 by reflexivity.
  split; [auto|].
  exact (proj1 (one_vote_per_term 1 ":8080" ":8081" c c1 H1 H2 H3)).
Defined.

End VoteOnceFacts.

Section ApplyFacts.

Import Raft.

(** X5: No entry is handed over twice: right after a call of
    [GetUnappliedEntries] a second call returns no entry and leaves the
    state as it is. *)
Theorem GetUnappliedEntries_once c c' entries :
  GetUnappliedEntries c = Ok (c', entries) ->
  GetUnappliedEntries c' = Ok (c', []).
Proof.
  unfold GetUnappliedEntries.
  destruct (decide (lastApplied c >= len (Log c) - 1)) as [Hge|Hlt].
  - intros [= <- <-]. by rewrite decide_True.
  - destruct (decide (lastApplied c + 1 < 0)); [discriminate|].
    intros [= <- <-]. simpl. rewrite decide_True; [done | lia].
Qed.

Lemma GetUnappliedEntries_once_witness :
  let e := mkLogEntry 1 "SET a 1" in
  let c := fst (HandleAppendEntriesIncremental 1 ":8080" (-1) [e]
                  (NewConsensus ":8081" [":8080"; ":8082"])) in
  GetUnappliedEntries c = Ok (set_lastApplied 0 c, [e])
  /\ GetUnappliedEntries (set_lastApplied 0 c) = Ok (set_lastApplied 0 c, []).
Proof.
  intros e c.
  assert (GetUnappliedEntries c = Ok (set_lastApplied 0 c, [e])) as H by reflexivity.
  split; [exact H|].
  exact (GetUnappliedEntries_once c _ _ H).
Defined.

(** X6: After [ClearLog] the entry of index 0 counts as applied: a node that
    then stores entries from the start of its log is handed all of them
    but the first, where a node in its initial state is handed all. *)
Theorem ClearLog_skips_first_entry term leaderID entries c :
  paused c = false ->
  ~ term < CurrentTerm c ->
  entries <> [] ->
  term >= 0 ->
  let cleared := fst (HandleAppendEntriesIncremental term leaderID (-1) entries
                        (ClearLog c)) in
  let fresh := fst (HandleAppendEntriesIncremental term leaderID (-1) entries
                      (NewConsensus (ID c) (Peers c))) in
  (exists c', GetUnappliedEntries cleared = Ok (c', drop 1 entries))
  /\ (exists c', GetUnappliedEntries fresh = Ok (c', entries)).
Proof.
  intros Hp Hterm Hne Hpos cleared fresh.
  assert (len entries <> 0) as Hlen.
  { destruct entries; [done | unfold len; simpl; lia]. }
  assert (1 <= len entries) as Hlen1 by (pose proof (len_nonneg entries); lia).
  assert (Log cleared = entries /\ lastApplied cleared = 0) as [HL HA].
  { unfold cleared, HandleAppendEntriesIncremental, ClearLog. simpl. rewrite Hp.
    destruct (decide (term < CurrentTerm c)); [contradiction|].
    destruct (decide (len entries = 0)); [contradiction|]. done. }
  assert (Log fresh = entries /\ lastApplied fresh = -1) as [HL' HA'].
  { unfold fresh, HandleAppendEntriesIncremental. simpl.
    destruct (decide (term < 0)); [lia|].
    destruct (decide (len entries = 0)); [contradiction|]. done. }
  split.
  - unfold GetUnappliedEntries. rewrite HL, HA.
    destruct (decide (0 >= len entries - 1)) as [Hone|Hmore].
    + eexists. f_equal. f_equal. symmetry. apply drop_ge. unfold len in *. lia.
    + destruct (decide (0 + 1 < 0)); [lia|]. by eexists.
  - unfold GetUnappliedEntries. rewrite HL', HA'.
    destruct (decide (-1 >= len entries - 1)); [lia|].
    destruct (decide (-1 + 1 < 0)); [lia|]. by eexists.
Qed.

Lemma ClearLog_skips_first_entry_witness :
  let e1 := mkLogEntry 1 "SET a 1" in
  let e2 := mkLogEntry 1 "SET b 2" in
  let c := NewConsensus ":8081" [":8080"; ":8082"] in
  (paused c = false /\ ~ 1 < CurrentTerm c /\ [e1; e2] <> [] /\ 1 >= 0)
  /\ exists c', GetUnappliedEntries
                  (fst (HandleAppendEntriesIncremental 1 ":8080" (-1) [e1; e2]
                          (ClearLog c))) = Ok (c', [e2]).
Proof.
  intros e1 e2 c.
  assert (paused c = false) as H1 by reflexivity.
  assert (~ 1 < CurrentTerm c) as H2 by (vm_compute; discriminate).
  assert ([e1; e2] <> []) as H3 by discriminate.
  assert (1 >= 0) as H4 by (vm_compute; discriminate).
  split; [auto|].
  exact (proj1 (ClearLog_skips_first_entry 1 ":8080" [e1; e2] c H1 H2 H3 H4)).
Defined.

End ApplyFacts.

Section ReplicationFacts.

Import Raft.



(** X8: Each CONFLICT reply moves [nextIndex] of the peer back by one, never
    below zero, and touches neither the other peers, nor [matchIndex], nor
    the log. *)
Theorem conflict_backs_up (k : nat) p logLen c :
  0 <= map_get (nextIndex c) p <= GoInt.max_int ->
  let c' := Nat.iter k (heartbeat_response p logLen CONFLICT) c in
  map_get (nextIndex c') p = Z.max 0 (map_get (nextIndex c) p - Z.of_nat k)
  /\ (forall q, q <> p -> nextIndex c' !! q = nextIndex c !! q)
  /\ matchIndex c' = matchIndex c
  /\ Log c' = Log c.
Proof.
  intros Hrange. induction k as [|k IH].
  - simpl. repeat split; lia.
  - cbn zeta in *. rewrite Nat.iter_succ.
    destruct IH as (Hn & Hq & Hm & Hl).
    set (c1 := Nat.iter k _ c) in *.
    unfold heartbeat_response.
    destruct (decide (map_get (nextIndex c1) p > 0)) as [Hpos|Hzero]; simpl.
    + rewrite sub_small
        by (unfold GoInt.in_range, GoInt.min_int, GoInt.max_int in *; lia).
      repeat split; try done.
      * unfold map_get at 1. rewrite lookup_insert_eq. simpl. lia.
      * intros q Hne. rewrite lookup_insert_ne by done. by apply Hq.
    + repeat split; try done. lia.
Qed.

Lemma conflict_backs_up_witness :
  let c := mkConsensus Leader 1 ":8080" [":8081"] ":8080" 0
             [] (-1) (-1) false {[ ":8081" := 2 ]} {[ ":8081" := -1 ]} in
  0 <= map_get (nextIndex c) ":8081" <= GoInt.max_int
  /\ map_get (nextIndex (Nat.iter 3 (heartbeat_response ":8081" 2 CONFLICT) c)) ":8081"
       = Z.max 0 (2 - 3).
Proof.
  intros c.
  assert (0 <= map_get (nextIndex c) ":8081" <= GoInt.max_int) as H by (by vm_compute).
  split; [exact H|].
  exact (proj1 (conflict_backs_up 3 ":8081" 2 c H)).
Defined.

End ReplicationFacts.

(** ** Further properties of the write-ahead log *)

Section WalFileFacts.

Import Wal.

Lemma append_nil_r s : s +:+ "" = s.
Proof. induction s as [|a s IH]; [done|]. change (String a (s +:+ "") = String a s). by rewrite IH. Qed.

Lemma append_assoc s t u : (s +:+ t) +:+ u = s +:+ (t +:+ u).
Proof.
  induction s as [|a s IH]; [done|].
  change (String a ((s +:+ t) +:+ u) = String a (s +:+ (t +:+ u))). by rewrite IH.
Qed.

Lemma starts_with_refl s : starts_with s s.
Proof. exists "". by rewrite append_nil_r. Qed.

Lemma starts_with_trans a b c : starts_with a b -> starts_with b c -> starts_with a c.
Proof. intros [t ->] [u ->]. exists (t +:+ u). apply append_assoc. Qed.

Lemma WriteString_appends s f :
  starts_with (contents f) (contents (fst (WriteString s f)))
  /\ durable (fst (WriteString s f)) = durable f
  /\ (snd (WriteString s f) = ErrNil ->
      contents (fst (WriteString s f)) = contents f +:+ s).
Proof.
  unfold WriteString. destruct (faults f) as [|[ft|] rest]; simpl.
  - split; [by eexists | done].
  - split; [by eexists | split; [done | discriminate]].
  - split; [by eexists | done].
Qed.

Lemma write_all_appends toFlush : forall f,
  starts_with (contents f) (contents (fst (write_all toFlush f)))
  /\ durable (fst (write_all toFlush f)) = durable f
  /\ (snd (write_all toFlush f) = ErrNil ->
      contents (fst (write_all toFlush f)) = contents f +:+ batch_bytes toFlush).
Proof.
  induction toFlush as [|pw rest IH]; intros f.
  - simpl. split; [apply starts_with_refl | split; [done|]].
    intros _. by rewrite append_nil_r.
  - simpl. destruct (WriteString_appends (entry pw) f) as (Hpre & Hdur & Hok).
    destruct (WriteString (entry pw) f) as [f1 [|msg]]; simpl in *.
    + destruct (IH f1) as (Hpre' & Hdur' & Hok').
      split; [by eapply starts_with_trans | split; [congruence|]].
      intros Hnil. rewrite (Hok' Hnil), (Hok eq_refl). apply append_assoc.
    + split; [done | split; [done | discriminate]].
Qed.

Lemma Sync_effect f :
  contents (fst (Sync f)) = contents f
  /\ (snd (Sync f) = ErrNil -> durable (fst (Sync f)) = contents f)
  /\ (snd (Sync f) <> ErrNil -> durable (fst (Sync f)) = durable f).
Proof.
  unfold Sync. destruct (faults f) as [|[ft|] rest]; simpl; repeat split; done.
Qed.

(** X9: An acknowledged batch is on stable storage: when [flush] signals nil,
    the file holds what it held before followed by the entries of the
    batch in queue order, and all of it is covered by the fsync. *)
Theorem flush_acknowledged_is_durable w :
  pending w <> [] ->
  snd (write_batch (pending w) (file w)) = ErrNil ->
  contents (file (flush w)) = contents (file w) +:+ batch_bytes (pending w)
  /\ durable (file (flush w)) = contents (file (flush w)).
Proof.
  intros Hne Hnil. unfold flush.
  destruct (pending w) as [|pw rest] eqn:Hp; [done|].
  unfold write_batch in *.
  destruct (write_all_appends (pw :: rest) (file w)) as (_ & _ & Hok).
  destruct (write_all (pw :: rest) (file w)) as [f1 [|msg]]; [|discriminate].
  simpl in Hok. specialize (Hok eq_refl).
  destruct (Sync_effect f1) as (Hc & Hd & _).
  destruct (Sync f1) as [f2 e]. simpl in *. subst e.
  rewrite Hc, Hd, Hok; done.
Qed.

Lemma flush_acknowledged_is_durable_witness :
  let old := format_entry "a" "1" in
  let w := mkWAL (mkFile old old [])
             [mkPendingWrite (format_entry "b" "2") 0;
              mkPendingWrite (format_entry "c" "3") 1]
             ∅ 2 in
  (pending w <> [] /\ snd (write_batch (pending w) (file w)) = ErrNil)
  /\ durable (file (flush w)) = contents (file (flush w)).
Proof.
  intros old w.
  assert (pending w <> []) as H1 by discriminate.
  assert (snd (write_batch (pending w) (file w)) = ErrNil) as H2 by reflexivity.
  split; [auto|].
  exact (proj2 (flush_acknowledged_is_durable w H1 H2)).
Defined.

(** X10: Whatever the operating system answers, [flush] only appends to the
    file, what is durable stays a beginning of what is written, and a
    batch that is not acknowledged leaves the durable part as it was. *)
Theorem flush_append_only w :
  starts_with (contents (file w)) (contents (file (flush w)))
  /\ (starts_with (durable (file w)) (contents (file w)) ->
      starts_with (durable (file (flush w))) (contents (file (flush w))))
  /\ (snd (write_batch (pending w) (file w)) <> ErrNil ->
      durable (file (flush w)) = durable (file w)).
Proof.
  unfold flush. destruct (pending w) as [|pw rest] eqn:Hp.
  - split; [apply starts_with_refl | split; [done|]]. by intros _.
  - unfold write_batch.
    destruct (write_all_appends (pw :: rest) (file w)) as (Hpre & Hdur & _).
    destruct (write_all (pw :: rest) (file w)) as [f1 [|msg]]; simpl in *.
    + destruct (Sync_effect f1) as (Hc & Hd & Hd').
      destruct (Sync f1) as [f2 e]. simpl in *.
      split; [by rewrite Hc|]. split.
      * intros Hinv. rewrite Hc. destruct e.
        -- rewrite Hd by done. apply starts_with_refl.
        -- rewrite Hd' by done. rewrite Hdur.
           by eapply starts_with_trans.
      * intros Hne. rewrite Hd' by done. done.
    + split; [done|]. split; [|by intros _].
      intros Hinv. rewrite Hdur. by eapply starts_with_trans.
Qed.

End WalFileFacts.

Section RecoveryFacts.

Import Wal.

Lemma split_on_nonempty sep s : split_on sep s <> [].
Proof.
  destruct s as [|a s]; simpl; [done|].
  destruct (Ascii.eqb a sep); [done|]. by destruct (split_on sep s).
Qed.

Lemma split_on_no_sep sep s : contains sep s = false -> split_on sep s = [s].
Proof.
  induction s as [|a s IH]; simpl; [done|].
  intros [Ha Hs]%orb_false_iff. rewrite Ha, (IH Hs). done.
Qed.

Lemma split_on_first sep a b :
  contains sep a = false ->
  split_on sep (a +:+ String sep b) = a :: split_on sep b.
Proof.
  induction a as [|x a IH]; intros Hc.
  - change (split_on sep (String sep b) = "" :: split_on sep b).
    simpl. by rewrite Ascii.eqb_refl.
  - simpl in Hc. apply orb_false_iff in Hc as [Hx Ha].
    change (split_on sep (String x (a +:+ String sep b)) = String x a :: split_on sep b).
    simpl. rewrite Hx, (IH Ha). done.
Qed.

Lemma raw_lines_terminated line rest :
  contains "010" line = false ->
  raw_lines (line +:+ String "010" rest) = line :: raw_lines rest.
Proof.
  intros Hc. unfold raw_lines. rewrite split_on_first by done.
  pose proof (split_on_nonempty "010" rest) as Hne.
  destruct (split_on "010" rest) as [|p ps] eqn:Hs; [done|].
  rewrite last_cons.
  destruct (last (p :: ps)) as [[|a l]|] eqn:Hlast; try done.
  by rewrite last_cons in Hlast; destruct (last ps).
Qed.

Lemma raw_lines_unterminated line :
  contains "010" line = false -> line <> "" -> raw_lines line = [line].
Proof.
  intros Hc Hne. unfold raw_lines. rewrite split_on_no_sep by done.
  simpl. by destruct line.
Qed.

Lemma contains_append a s t :
  contains a (s +:+ t) = contains a s || contains a t.
Proof.
  induction s as [|x s IH]; [done|].
  change (contains a (String x (s +:+ t)) = contains a (String x s) || contains a t).
  simpl. rewrite IH. by rewrite orb_assoc.
Qed.

Lemma clean_record_line kv :
  clean_record kv ->
  contains "010" (record_line kv) = false
  /\ Split_comma (record_line kv) = [kv.1; kv.2].
Proof.
  intros (Hk1 & Hk2 & Hv1 & Hv2 & _). split.
  - unfold record_line. rewrite !contains_append, Hk2, Hv2. done.
  - unfold Split_comma, record_line.
    change (kv.1 +:+ "," +:+ kv.2) with (kv.1 +:+ String "," kv.2).
    rewrite split_on_first by done. by rewrite split_on_no_sep.
Qed.

Lemma record_line_nonempty kv : record_line kv <> "".
Proof. unfold record_line. by destruct (kv.1). Qed.

Lemma format_entry_line kv rest :
  format_entry kv.1 kv.2 +:+ rest = record_line kv +:+ String "010" rest.
Proof.
  unfold format_entry, record_line. by rewrite !append_assoc.
Qed.

Lemma scan_lines_records records unterminated :
  Forall clean_record records ->
  (forall kv, unterminated = Some kv -> clean_record kv) ->
  scan_lines (file_of_records records unterminated)
    = map record_line (records ++ option_list unterminated).
Proof.
  intros Hrec Hpart. unfold scan_lines.
  induction Hrec as [|kv records Hkv Hrec IH].
  - simpl. destruct unterminated as [kv|]; simpl; [|done].
    destruct (Hpart kv eq_refl) as (_ & _ & _ & _ & Hcr & Hlen).
    rewrite raw_lines_unterminated;
      [| apply clean_record_line; by apply Hpart | apply record_line_nonempty].
    simpl. rewrite decide_False by lia. by rewrite Hcr.
  - change (file_of_records (kv :: records) unterminated)
      with (format_entry kv.1 kv.2 +:+ file_of_records records unterminated).
    rewrite format_entry_line.
    rewrite raw_lines_terminated by (by apply clean_record_line).
    destruct Hkv as (Hk1 & Hk2 & Hv1 & Hv2 & Hcr & Hlen).
    simpl. rewrite decide_False by lia. rewrite Hcr. f_equal. apply IH.
Qed.

Lemma recover_lines_replay records : forall data,
  Forall clean_record records ->
  foldl recover_line data (map record_line records)
    = foldl (fun m kv => <[kv.1 := kv.2]> m) data records.
Proof.
  induction records as [|kv records IH]; intros data Hrec; [done|].
  apply Forall_cons in Hrec as [Hkv Hrec]. simpl.
  rewrite <- IH by done. f_equal.
  unfold recover_line. destruct (clean_record_line kv Hkv) as [_ ->]. done.
Qed.

(** X11: Recovery rebuilds what was written.  For a log file made of records
    without comma or newline in key and value, [Recover] returns the map
    in which each key has the value of its last record, with no error; a
    last record whose newline is missing is read like the others. *)
Theorem Recover_round_trip fs filename records unterminated :
  Forall clean_record records ->
  (forall kv, unterminated = Some kv -> clean_record kv) ->
  fs !! filename = Some (Regular (file_of_records records unterminated)) ->
  Recover fs filename = (Some (replay (records ++ option_list unterminated)), ErrNil).
Proof.
  intros Hrec Hpart Hfile. unfold Recover. rewrite Hfile.
  rewrite scan_lines_records by done.
  unfold replay. rewrite recover_lines_replay; [done|].
  apply Forall_app. split; [done|].
  destruct unterminated as [kv|]; simpl; [|done].
  apply Forall_cons. split; [by apply Hpart | done].
Qed.

Lemma clean_record_example k v :
  contains "," k = false -> contains "010" k = false ->
  contains "," v = false -> contains "010" v = false ->
  dropCR (record_line (k, v)) = record_line (k, v) ->
  Z.of_nat (String.length (record_line (k, v))) < MaxScanTokenSize ->
  clean_record (k, v).
Proof. unfold clean_record. simpl. tauto. Qed.

Lemma Recover_round_trip_witness :
  let records := [("k1", "v1"); ("k2", "v2"); ("k1", "v3")] in
  let fs : gmap string inode :=
    {[ "server_8080.log" := Regular (file_of_records records (Some ("k2", "v4"))) ]} in
  exists data,
    Recover fs "server_8080.log" = (Some data, ErrNil)
    /\ data !! "k1" = Some "v3" /\ data !! "k2" = Some "v4".
Proof.
  intros records fs.
  assert (forall k v, (k, v) ∈ [("k1", "v1"); ("k2", "v2"); ("k1", "v3"); ("k2", "v4")] ->
            clean_record (k, v)) as Hclean.
  { intros k v Hin. repeat (apply elem_of_cons in Hin as [[= -> ->]|Hin]);
      [| | | |by apply elem_of_nil in Hin];
      apply clean_record_example; by vm_compute. }
  assert (Forall clean_record records) as H1.
  { repeat (apply Forall_cons; split; [apply Hclean; set_solver|]). done. }
  assert (forall kv, Some ("k2", "v4") = Some kv -> clean_record kv) as H2.
  { intros kv [= <-]. apply Hclean. set_solver. }
  assert (fs !! "server_8080.log"
            = Some (Regular (file_of_records records (Some ("k2", "v4"))))) as H3
    by reflexivity.
  eexists. split; [exact (Recover_round_trip fs _ records _ H1 H2 H3)|].
  split; by vm_compute.
Defined.

End RecoveryFacts.

Section RestartFacts.

Import Wal Store.

Lemma write_batch_ok toFlush f :
  snd (write_batch toFlush f) = ErrNil ->
  contents (fst (write_batch toFlush f)) = contents f +:+ batch_bytes toFlush
  /\ durable (fst (write_batch toFlush f)) = contents (fst (write_batch toFlush f)).
Proof.
  unfold write_batch.
  destruct (write_all_appends toFlush f) as (_ & _ & Hok).
  destruct (write_all toFlush f) as [f1 [|msg]]; [|discriminate].
  simpl in Hok. specialize (Hok eq_refl).
  destruct (Sync_effect f1) as (Hc & Hd & _).
  destruct (Sync f1) as [f2 e]. simpl in *. intros ->.
  rewrite Hc, Hd, Hok; done.
Qed.

Lemma write_batch_no_faults toFlush f :
  faults f = [] -> snd (write_batch toFlush f) = ErrNil.
Proof.
  unfold write_batch.
  assert (forall l g, faults g = [] ->
            snd (write_all l g) = ErrNil /\ faults (fst (write_all l g)) = []) as H.
  { induction l as [|pw l IH]; intros g Hg; [done|].
    simpl. unfold WriteString. rewrite Hg. apply IH. done. }
  intros Hf. destruct (H toFlush f Hf) as [He Hf1].
  destruct (write_all toFlush f) as [f1 e]. simpl in *. subst e.
  unfold Sync. by rewrite Hf1.
Qed.

Lemma file_of_records_snoc records kv :
  file_of_records records None +:+ format_entry kv.1 kv.2
    = file_of_records (records ++ [kv]) None.
Proof.
  induction records as [|r records IH].
  - simpl. by rewrite append_nil_r.
  - change (file_of_records (r :: records) None)
      with (format_entry r.1 r.2 +:+ file_of_records records None).
    rewrite append_assoc, IH. done.
Qed.

(** X12: A write that [Set] acknowledged survives a restart.  On a log file
    of well-formed records whose disk does not fail, [Set] of a
    well-formed key and value succeeds; recovering the durable part of
    the file and restoring it into a new store gives a store where [Get]
    of the key returns the value, and the recovered map is the map the
    old store holds in memory when that one agreed with its file. *)
Theorem Set_survives_restart s records key value fs filename w2 :
  pending (wal s) = [] ->
  faults (file (wal s)) = [] ->
  contents (file (wal s)) = file_of_records records None ->
  Forall clean_record records ->
  clean_record (key, value) ->
  fs !! filename = Some (Regular (durable (file (wal (fst (Set_ key value s)))))) ->
  snd (Set_ key value s) = Some ErrNil
  /\ exists d,
       Recover fs filename = (Some d, ErrNil)
       /\ d = <[key := value]> (replay records)
       /\ Get key (Restore d (NewStore w2)) = (value, ErrNil)
       /\ (data s = replay records -> data (fst (Set_ key value s)) = d).
Proof.
  intros Hpend Hfaults Hcontents Hrec Hkv.
  set (pw := mkPendingWrite (format_entry key value) (next_chan (wal s))).
  pose proof (WriteEntry_returns key value (wal s)) as Hret.
  rewrite Hpend, app_nil_l in Hret.
  pose proof (write_batch_no_faults [pw] (file (wal s)) Hfaults) as Hnil.
  fold pw in Hret. rewrite Hnil in Hret.
  assert (file (fst (WriteEntry key value (wal s))) = fst (write_batch [pw] (file (wal s))))
    as Hfile.
  { unfold WriteEntry, enqueue, flush. rewrite Hpend. simpl. fold pw.
    by destruct (write_batch [pw] (file (wal s))). }
  destruct (write_batch_ok [pw] (file (wal s)) Hnil) as [Hc Hd].
  unfold Set_.
  destruct (WriteEntry key value (wal s)) as [w1 r]. simpl in Hret, Hfile. subst r.
  simpl. intros Hfs. split; [done|].
  exists (<[key := value]> (replay records)).
  split; [|split; [done|split; [|by intros ->]]].
  - unfold Recover. rewrite Hfs, Hfile, Hd, Hc, Hcontents.
    simpl. rewrite append_nil_r.
    change (format_entry key value) with (format_entry (key, value).1 (key, value).2).
    rewrite (file_of_records_snoc records (key, value)).
    rewrite (scan_lines_records (records ++ [(key, value)]) None);
      [| apply Forall_app; split; [done | by apply Forall_cons] | done].
    simpl. rewrite app_nil_r.
    rewrite recover_lines_replay
      by (apply Forall_app; split; [done | by apply Forall_cons]).
    unfold replay. by rewrite foldl_app.
  - unfold Get, Restore. simpl. by rewrite lookup_insert_eq.
Qed.

Lemma Set_survives_restart_witness :
  let records := [("user", "Mathijs")] in
  let old := file_of_records records None in
  let s := mkStore (mkWAL (mkFile old old []) [] ∅ 0) (replay records) in
  let s' := fst (Set_ "k" "v" s) in
  let fs : gmap string inode :=
    {[ "test_wal.log" := Regular (durable (file (wal s'))) ]} in
  snd (Set_ "k" "v" s) = Some ErrNil
  /\ exists d,
       Recover fs "test_wal.log" = (Some d, ErrNil)
       /\ Get "k" (Restore d (NewStore (wal s'))) = ("v", ErrNil).
Proof.
  intros records old s s' fs.
  assert (pending (wal s) = []) as H1 by reflexivity.
  assert (faults (file (wal s)) = []) as H2 by reflexivity.
  assert (contents (file (wal s)) = file_of_records records None) as H3 by reflexivity.
  assert (Forall clean_record records) as H4.
  { apply Forall_cons. split; [|done]. apply clean_record_example; by vm_compute. }
  assert (clean_record ("k", "v")) as H5 by (apply clean_record_example; by vm_compute).
  assert (fs !! "test_wal.log"
            = Some (Regular (durable (file (wal (fst (Set_ "k" "v" s))))))) as H6
    by reflexivity.
  destruct (Set_survives_restart s records "k" "v" fs "test_wal.log" (wal s')
              H1 H2 H3 H4 H5 H6) as (Hok & d & HR & _ & HG & _).
  split; [exact Hok|]. exists d. auto.
Defined.

End RestartFacts.

(** ** The command router *)

Section RouterFacts.

Import Raft Wal Store Server.

Lemma Set_no_faults key value s :
  faults (file (wal s)) = [] ->
  snd (Set_ key value s) = Some ErrNil
  /\ data (fst (Set_ key value s)) = <[key := value]> (data s).
Proof.
  intros Hf. unfold Set_.
  pose proof (WriteEntry_returns key value (wal s)) as Hret.
  rewrite write_batch_no_faults in Hret by done.
  destruct (WriteEntry key value (wal s)) as [w1 r]. simpl in Hret. by subst r.
Qed.

(** X13: A SET line with a key and a value.  A node that is not Leader answers
    NOTLEADER and changes nothing.  A Leader appends the command, with
    the words of the value joined by single spaces, to its log under its
    current term and answers OK, also when the write-ahead log reports an
    error: the map is then left as it was although the entry is in the
    log. *)
Theorem serve_SET_reply cmd key v0 rest latency r :
  let parts := cmd :: key :: v0 :: rest in
  let value := Join (v0 :: rest) " " in
  let r' := fst (fst (serve_SET parts latency r)) in
  let reply := snd (fst (serve_SET parts latency r)) in
  (State (raft (base r)) <> Leader ->
     reply = Fprintln "NOTLEADER" /\ r' = r)
  /\ (State (raft (base r)) = Leader ->
        reply = Fprintln "OK"
        /\ Log (raft (base r'))
             = Log (raft (base r))
               ++ [mkLogEntry (CurrentTerm (raft (base r)))
                     ("SET " +:+ key +:+ " " +:+ value)]
        /\ (forall msg, snd (Set_ key value (store (base r))) = Some (Err msg) ->
              data (store (base r')) = data (store (base r)))
        /\ (snd (Set_ key value (store (base r))) = Some ErrNil ->
              data (store (base r')) = <[key := value]> (data (store (base r))))).
Proof.
  intros parts value r' reply. subst parts value r' reply.
  unfold serve_SET, GetState. split.
  - intros Hne. by rewrite decide_False.
  - intros Hl. rewrite decide_True by done. cbn [fst snd base raft store].
    split; [done|]. split.
    + unfold Replicate. rewrite decide_False; [done|]. intros Hne. by apply Hne.
    + unfold Set_.
      destruct (WriteEntry key (Join (v0 :: rest) " ") (wal (store (base r))))
        as [w1 [[|msg]|]]; simpl; split; try done; discriminate.
Qed.

(** X14: A value written through SET on a Leader whose disk does not fail is
    what a GET of the key returns afterwards, its words joined by single
    spaces; a GET of a key that was never set answers (nil). *)
Theorem serve_SET_then_GET cmd key v0 rest get latency latency' r :
  State (raft (base r)) = Leader ->
  faults (file (wal (store (base r)))) = [] ->
  let r1 := fst (fst (serve_SET (cmd :: key :: v0 :: rest) latency r)) in
  snd (serve_GET [get; key] latency' r1) = Fprintln (Join (v0 :: rest) " ")
  /\ (forall other, data (store (base r)) !! other = None -> other <> key ->
        snd (serve_GET [get; other] latency' r1) = Fprintln "(nil)").
Proof.
  intros Hl Hf r1. subst r1. unfold serve_SET, GetState.
  rewrite decide_True by done. cbn [fst snd].
  destruct (Set_no_faults key (Join (v0 :: rest) " ") (store (base r)) Hf) as [_ Hd].
  unfold serve_GET, Get. cbn [base store]. rewrite Hd. split.
  - by rewrite lookup_insert_eq.
  - intros other Hnone Hne. rewrite lookup_insert_ne by done. by rewrite Hnone.
Qed.

Lemma serve_SET_then_GET_witness :
  let leader := set_State Leader (NewConsensus ":8080" [":8081"; ":8082"]) in
  let r := mkRouter (mkServer (NewStore (mkWAL (mkFile "" "" []) [] ∅ 0)) leader)
             [] (Metrics.NewMetrics 0) in
  let r1 := fst (fst (serve_SET ["SET"; "user"; "Mathijs"; "D"] 5 r)) in
  (State (raft (base r)) = Leader /\ faults (file (wal (store (base r)))) = [])
  /\ snd (serve_GET ["GET"; "user"] 7 r1) = Fprintln "Mathijs D".
Proof.
  intros leader r r1.
  assert (State (raft (base r)) = Leader) as H1 by reflexivity.
  assert (faults (file (wal (store (base r)))) = []) as H2 by reflexivity.
  split; [auto|].
  exact (proj1 (serve_SET_then_GET "SET" "user" "Mathijs" ["D"] "GET" 5 7 r H1 H2)).
Defined.

End RouterFacts.

(** ** Metrics *)

Section MetricsFacts.

Import Metrics.

Lemma foldl_apply_op_counters ops now :
  len ops <= GoInt.max_int ->
  let m := foldl apply_op (NewMetrics now) ops in
  0 <= successCount m /\ 0 <= failCount m
  /\ totalRequests m = successCount m + failCount m
  /\ successCount m = len (latencies m)
  /\ totalRequests m <= len ops.
Proof.
  induction ops as [|op ops IH] using rev_ind; intros Hlen.
  - by vm_compute.
  - rewrite len_app in Hlen. change (len [op]) with 1 in Hlen.
    pose proof (len_nonneg ops) as Hpos.
    cbn zeta. rewrite foldl_app. cbn [foldl].
    destruct IH as (Hs & Hf & Ht & Hl & Hb); [lia|].
    set (m := foldl apply_op (NewMetrics now) ops) in *.
    rewrite len_app. change (len [op]) with 1.
    assert (forall x, 0 <= x <= len ops -> GoInt.add x 1 = x + 1) as Hadd.
    { intros x Hx. apply add_small.
      unfold GoInt.in_range, GoInt.min_int, GoInt.max_int in *. lia. }
    destruct op as [latency| |now']; simpl.
    + rewrite !Hadd by lia. rewrite len_app. change (len [latency]) with 1. lia.
    + rewrite !Hadd by lia. lia.
    + unfold len. simpl. lia.
Qed.

(** X15: The counters add up.  After any sequence of [RecordSuccess],
    [RecordFailure] and [Reset] on new metrics, the total is the number of
    successes plus the number of failures, and there is one recorded
    latency for each success. *)
Theorem metrics_counters_add_up ops now :
  len ops <= GoInt.max_int ->
  let m := foldl apply_op (NewMetrics now) ops in
  totalRequests m = successCount m + failCount m
  /\ successCount m = len (latencies m)
  /\ 0 <= failCount m
  /\ totalRequests m <= len ops.
Proof.
  intros Hlen m.
  destruct (foldl_apply_op_counters ops now Hlen) as (? & ? & ? & ? & ?).
  auto.
Qed.

Lemma metrics_counters_add_up_witness :
  let ops := [DoRecordSuccess 5; DoRecordFailure; DoReset 9;
              DoRecordSuccess 7; DoRecordSuccess 3; DoRecordFailure] in
  len ops <= GoInt.max_int
  /\ totalRequests (foldl apply_op (NewMetrics 0) ops)
       = successCount (foldl apply_op (NewMetrics 0) ops)
         + failCount (foldl apply_op (NewMetrics 0) ops).
Proof.
  intros ops.
  assert (len ops <= GoInt.max_int) as H by (by vm_compute).
  split; [exact H|].
  exact (proj1 (metrics_counters_add_up ops 0 H)).
Defined.

Lemma StronglySorted_lookup_le (l : list Z) : forall (i j : nat) x y,
  StronglySorted Z.le l -> (i <= j)%nat ->
  l !! i = Some x -> l !! j = Some y -> x <= y.
Proof.
  induction l as [|a l IH]; intros i j x y Hs Hij Hi Hj; [done|].
  apply StronglySorted_inv in Hs as [Hs Hall].
  destruct i as [|i], j as [|j]; simpl in *.
  - simplify_eq. lia.
  - simplify_eq. rewrite Forall_forall in Hall. apply Hall.
    by eapply list_elem_of_lookup_2.
  - lia.
  - eapply (IH i j); eauto. lia.
Qed.

Lemma percentile_index_bounds n pct :
  0 < n < 2 ^ 56 -> 0 <= pct < 100 ->
  percentile_index n pct = n * pct / 100
  /\ 0 <= percentile_index n pct < n.
Proof.
  intros Hn Hpct. unfold percentile_index.
  rewrite wrap_in_range
    by (unfold GoInt.in_range, GoInt.min_int, GoInt.max_int; nia).
  rewrite Z.quot_div_nonneg by nia.
  split; [done|]. split.
  - apply Z.div_pos; nia.
  - apply Z.div_lt_upper_bound; nia.
Qed.

Lemma index_in_range (l : list Z) i :
  0 <= i < len l -> exists x, index l i = Ok x /\ l !! Z.to_nat i = Some x.
Proof.
  intros Hi. unfold index. rewrite decide_True by done.
  destruct (lookup_lt_is_Some_2 l (Z.to_nat i)) as [x Hx];
    [unfold len in Hi; lia|].
  exists x. by rewrite Hx.
Qed.

(** X16: The percentiles of a snapshot never index out of range.  With at
    least one and fewer than 2^56 recorded latencies the three indices
    lie inside the sorted slice, the clamp of the index of the 99th
    percentile is never needed, each percentile is the whole number of
    microseconds of a recorded latency, and P50 <= P95 <= P99; with no
    latency the percentiles are left out. *)
Theorem snapshot_percentiles_in_range m :
  len (latencies m) < 2 ^ 56 ->
  (latencies m = [] /\ snapshot_latencies m = Ok None)
  \/ (exists p a b c,
        snapshot_latencies m = Ok (Some p)
        /\ a ∈ latencies m /\ b ∈ latencies m /\ c ∈ latencies m
        /\ p50_us p = Microseconds a /\ p95_us p = Microseconds b
        /\ p99_us p = Microseconds c
        /\ p50_us p <= p95_us p <= p99_us p
        /\ p99Idx (len (latencies m)) = len (latencies m) * 99 / 100).
Proof.
  intros Hbound. unfold snapshot_latencies.
  destruct (decide (len (latencies m) > 0)) as [Hpos|Hzero].
  - right.
    pose proof (merge_sort_Permutation Z.le (latencies m)) as Hperm.
    pose proof (StronglySorted_merge_sort Z.le (latencies m)) as Hsorted.
    fold (sorted_latencies m) in Hperm, Hsorted.
    assert (len (sorted_latencies m) = len (latencies m)) as Hlen.
    { unfold len. by rewrite Hperm. }
    rewrite Hlen. set (n := len (latencies m)) in *.
    destruct (percentile_index_bounds n 50) as [H50 B50]; [lia | lia |].
    destruct (percentile_index_bounds n 95) as [H95 B95]; [lia | lia |].
    destruct (percentile_index_bounds n 99) as [H99 B99]; [lia | lia |].
    assert (p99Idx n = percentile_index n 99) as Hclamp.
    { unfold p99Idx. cbn zeta. destruct (decide (_ >= n)); [lia | done]. }
    rewrite Hclamp.
    destruct (index_in_range (sorted_latencies m) (percentile_index n 50))
      as (a & -> & Ha); [lia|].
    destruct (index_in_range (sorted_latencies m) (percentile_index n 95))
      as (b & -> & Hb); [lia|].
    destruct (index_in_range (sorted_latencies m) (percentile_index n 99))
      as (c & -> & Hc); [lia|].
    eexists _, a, b, c. split; [reflexivity|].
    assert (percentile_index n 50 <= percentile_index n 95 <= percentile_index n 99)
      as Hmono.
    { rewrite H50, H95, H99. split; apply Z.div_le_mono; lia. }
    assert (a <= b) as Hab.
    { eapply (StronglySorted_lookup_le _ _ _ a b Hsorted); [|done|done]. lia. }
    assert (b <= c) as Hbc.
    { eapply (StronglySorted_lookup_le _ _ _ b c Hsorted); [|done|done]. lia. }
    repeat split; simpl; try done.
    + rewrite <- Hperm. by eapply list_elem_of_lookup_2.
    + rewrite <- Hperm. by eapply list_elem_of_lookup_2.
    + rewrite <- Hperm. by eapply list_elem_of_lookup_2.
    + unfold Microseconds. apply Z.quot_le_mono; lia.
    + unfold Microseconds. apply Z.quot_le_mono; lia.
  - left. split; [|done].
    destruct (latencies m); [done|]. unfold len in Hzero. simpl in Hzero. lia.
Qed.

Lemma snapshot_percentiles_in_range_witness :
  let m := foldl apply_op (NewMetrics 0)
             [DoRecordSuccess 9000; DoRecordSuccess 2000; DoRecordSuccess 5000] in
  len (latencies m) < 2 ^ 56
  /\ snapshot_latencies m = Ok (Some (mkPercentiles 16 5 9 9)).
Proof.
  intros m.
  assert (len (latencies m) < 2 ^ 56) as H by (by vm_compute).
  split; [exact H|].
  destruct (snapshot_percentiles_in_range m H) as [[Hnil _]|(p & a & b & c & Hs & _)].
  - discriminate Hnil.
  - reflexivity.
Defined.

End MetricsFacts.

(** ** The commit rule as the code has it *)

Section CommitRuleFacts.

Import Raft Wal Store Server.









End CommitRuleFacts.
